(** * Schema helpers of the RouterOS provider: validators and diff suppressors

    A shallow embedding of [routeros/provider_schema_helpers.go].  Go strings
    are byte sequences and are modelled by [string] (a list of 8-bit
    characters); Go's [int64]/[uint64] are modelled in [Z] with the wrap-around
    written out where the source can reach it. *)

From stdpp Require Import base gmap strings list.
From Stdlib Require Import ZArith Ascii String List Lia QArith DecimalString.
From Stdlib Require DecimalFacts DecimalPos.
Import ListNotations.

Local Open Scope string_scope.
Local Open Scope Z_scope.

(** ** Go's [strconv] integer parser

    [strconv.ParseInt] and [strconv.ParseUint] belong to the Go standard
    library; they are transcribed here statement by statement because the MTU
    validator and [HexEqual] are decided by them. *)
Module strconv.

(** The sentinel errors [strconv.ErrSyntax] and [strconv.ErrRange], and the
    two errors produced for a bad base or bit size. *)
Inductive ErrKind : Type :=
| ErrSyntax
| ErrRange
| ErrBase (base : Z)
| ErrBitSize (bitSize : Z).

(** [*strconv.NumError]. *)
Record NumError : Type := mkNumError {
  Func : string;
  Num : string;
  Err : ErrKind
}.

Definition syntaxError (fn str : string) : NumError := mkNumError fn str ErrSyntax.
Definition rangeError (fn str : string) : NumError := mkNumError fn str ErrRange.
Definition baseError (fn str : string) (base : Z) : NumError :=
  mkNumError fn str (ErrBase base).
Definition bitSizeError (fn str : string) (bitSize : Z) : NumError :=
  mkNumError fn str (ErrBitSize bitSize).

Definition IntSize : Z := 64.
Definition maxUint64 : Z := 2 ^ 64 - 1.

(** The numeric value of a byte of a Go string. *)
Definition byte (c : ascii) : Z := Z.of_N (N_of_ascii c).

(** [lower(c) = c | ('x' - 'X')]. *)
Definition lower (c : Z) : Z := Z.lor c 32.

Definition is_ErrRange (k : ErrKind) : bool :=
  match k with ErrRange => true | _ => false end.

(** [s[i:]] on a string known to be long enough. *)
Fixpoint drop_bytes (n : nat) (s : string) : string :=
  match n, s with
  | O, _ => s
  | S n', String _ s' => drop_bytes n' s'
  | S _, EmptyString => EmptyString
  end.

(** The second byte of [s], when [len(s) >= 2]. *)
Definition byte1 (s : string) : option Z :=
  match s with
  | String _ (String c _) => Some (byte c)
  | _ => None
  end.

(** [underscoreOK]: underscores are only allowed between digits or between a
    base prefix and a digit.  [saw] is the last character class seen. *)
Inductive Saw : Type := SawStart | SawDigit | SawUnderscore | SawOther.

Definition saw_eqb (a b : Saw) : bool :=
  match a, b with
  | SawStart, SawStart | SawDigit, SawDigit
  | SawUnderscore, SawUnderscore | SawOther, SawOther => true
  | _, _ => false
  end.

Fixpoint underscoreOK_loop (hex : bool) (s : string) (saw : Saw) : bool :=
  match s with
  | EmptyString => negb (saw_eqb saw SawUnderscore)
  | String ch rest =>
      let c := byte ch in
      if ((48 <=? c) && (c <=? 57))
         || (hex && (97 <=? lower c) && (lower c <=? 102))
      then underscoreOK_loop hex rest SawDigit
      else if c =? 95
      then if negb (saw_eqb saw SawDigit) then false
           else underscoreOK_loop hex rest SawUnderscore
      else if saw_eqb saw SawUnderscore then false
      else underscoreOK_loop hex rest SawOther
  end.

Definition underscoreOK (s : string) : bool :=
  let s :=
    match s with
    | String c rest => if (byte c =? 45) || (byte c =? 43) then rest else s
    | EmptyString => s
    end in
  match s, byte1 s with
  | String c0 _, Some c1 =>
      if (byte c0 =? 48)
         && ((lower c1 =? 98) || (lower c1 =? 111) || (lower c1 =? 120))
      then underscoreOK_loop (lower c1 =? 120) (drop_bytes 2 s) SawDigit
      else underscoreOK_loop false s SawStart
  | _, _ => underscoreOK_loop false s SawStart
  end.

(** The digit loop of [ParseUint].  It either stops with the pair the source
    returns from inside the loop, or runs to the end of the string and yields
    the accumulated number together with the [underscores] flag. *)
Inductive LoopResult : Type :=
| LoopReturn (n : Z) (e : ErrKind)
| LoopDone (n : Z) (underscores : bool).

Fixpoint digits_loop (base0 : bool) (base cutoff maxVal : Z)
    (s : string) (n : Z) (underscores : bool) : LoopResult :=
  match s with
  | EmptyString => LoopDone n underscores
  | String ch rest =>
      let c := byte ch in
      if (c =? 95) && base0
      then digits_loop base0 base cutoff maxVal rest n true
      else
        let digit :=
          if (48 <=? c) && (c <=? 57) then Some (c - 48)
          else if (97 <=? lower c) && (lower c <=? 122)
          then Some (lower c - 97 + 10)
          else None in
        match digit with
        | None => LoopReturn 0 ErrSyntax
        | Some d =>
            if d >=? base then LoopReturn 0 ErrSyntax
            else if n >=? cutoff then LoopReturn maxVal ErrRange
            else
              let n' := (n * base) mod 2 ^ 64 in
              let n1 := (n' + d) mod 2 ^ 64 in
              if (n1 <? n') || (n1 >? maxVal)
              then LoopReturn maxVal ErrRange
              else digits_loop base0 base cutoff maxVal rest n1 underscores
        end
  end.

(** The base selected by [ParseUint] and the digits left to read; [None] when
    the base is invalid. *)
Definition pick_base (s : string) (base : Z) : option (Z * string) :=
  if (2 <=? base) && (base <=? 36) then Some (base, s)
  else if base =? 0 then
    match s with
    | String c0 _ =>
        if byte c0 =? 48 then
          let long := (3 <=? String.length s)%nat in
          match byte1 s with
          | Some c1 =>
              if long && (lower c1 =? 98) then Some (2, drop_bytes 2 s)
              else if long && (lower c1 =? 111) then Some (8, drop_bytes 2 s)
              else if long && (lower c1 =? 120) then Some (16, drop_bytes 2 s)
              else Some (8, drop_bytes 1 s)
          | None => Some (8, drop_bytes 1 s)
          end
        else Some (10, s)
    | EmptyString => Some (10, s)
    end
  else None.

(** [strconv.ParseUint(s, base, bitSize)]: the value and the error (if any). *)
Definition ParseUint (s : string) (base bitSize : Z) : Z * option NumError :=
  let fnParseUint := "ParseUint" in
  if String.eqb s EmptyString then (0, Some (syntaxError fnParseUint s))
  else
    let base0 := base =? 0 in
    let s0 := s in
    match pick_base s base with
    | None => (0, Some (baseError fnParseUint s0 base))
    | Some (base, s) =>
        if (bitSize <? 0) || (bitSize >? 64)
        then (0, Some (bitSizeError fnParseUint s0 bitSize))
        else
          let bitSize := if bitSize =? 0 then IntSize else bitSize in
          let cutoff := maxUint64 / base + 1 in
          let maxVal := 2 ^ bitSize - 1 in
          match digits_loop base0 base cutoff maxVal s 0 false with
          | LoopReturn n e => (n, Some (mkNumError fnParseUint s0 e))
          | LoopDone n underscores =>
              if underscores && negb (underscoreOK s0)
              then (0, Some (syntaxError fnParseUint s0))
              else (n, None)
          end
    end.

(** [strconv.ParseInt(s, base, bitSize)]. *)
Definition ParseInt (s : string) (base bitSize : Z) : Z * option NumError :=
  let fnParseInt := "ParseInt" in
  if String.eqb s EmptyString then (0, Some (syntaxError fnParseInt s))
  else
    let s0 := s in
    let '(neg, s) :=
      match s with
      | String c rest =>
          if byte c =? 43 then (false, rest)
          else if byte c =? 45 then (true, rest)
          else (false, s)
      | EmptyString => (false, s)
      end in
    let '(un, err) := ParseUint s base bitSize in
    let fatal :=
      match err with
      | Some e => if is_ErrRange (Err e) then None else Some e
      | None => None
      end in
    match fatal with
    | Some e => (0, Some (mkNumError fnParseInt s0 (Err e)))
    | None =>
        let bitSize := if bitSize =? 0 then IntSize else bitSize in
        let cutoff := 2 ^ (bitSize - 1) in
        if negb neg && (un >=? cutoff)
        then (cutoff - 1, Some (rangeError fnParseInt s0))
        else if neg && (un >? cutoff)
        then (- cutoff, Some (rangeError fnParseInt s0))
        else (if neg then - un else un, None)
    end.

End strconv.

(** ** Values, diagnostics and schemas of the plugin SDK *)

(** Go's [interface{}] values that flow through a schema: the kinds a
    [TypeString], [TypeInt] or [TypeBool] field can hold. *)
Inductive any : Type :=
| AString (s : string)
| AInt (n : Z)
| ABool (b : bool).

(** A call either returns or panics.  A panic raised by the helpers carries a
    fixed message followed by the text of an error; the error is kept as a
    value next to the message. *)
Inductive outcome (E A : Type) : Type :=
| Return (a : A)
| Panic (msg : string) (err : E).
Arguments Return {E A} a.
Arguments Panic {E A} msg err.

(** The panic of a failed type assertion [i.(string)]. *)
Inductive TypeAssertionError : Type := NotAString (i : any).

Module diag.

Inductive Severity : Type := Error | Warning.

(** [diag.Diagnostic]; [AttributePath] is never set by the helpers. *)
Record Diagnostic : Type := mkDiagnostic {
  severity : Severity;
  Summary : string;
  Detail : string
}.

(** [diag.Diagnostics]; Go's [nil] is the empty list. *)
Definition Diagnostics : Type := list Diagnostic.

End diag.

Module cty.

(** [cty.Path]: the attribute path handed to a validator. *)
Inductive PathStep : Type :=
| GetAttrStep (name : string)
| IndexStep (key : any).
Definition Path : Type := list PathStep.

End cty.

Module schema.

Inductive ValueType : Type :=
| TypeBool | TypeInt | TypeFloat | TypeString | TypeList | TypeMap | TypeSet.

(** [schema.ResourceData]: the field values of one resource instance.  The
    helpers receive it and never look inside. *)
Record ResourceData : Type := mkResourceData {
  values : gmap string any
}.

(** [schema.SchemaValidateFunc]: warnings and errors. *)
Definition SchemaValidateFunc : Type :=
  any -> string -> list string * list string.

Definition SchemaValidateDiagFunc : Type :=
  any -> cty.Path -> outcome TypeAssertionError diag.Diagnostics.

Definition SchemaDiffSuppressFunc : Type :=
  string -> string -> string -> ResourceData -> bool.

(** The fields of [schema.Schema] that the helpers set; a field left out of a
    composite literal has Go's zero value ([false], the empty string, [nil]). *)
Record Schema : Type := mkSchema {
  Type_ : ValueType;
  Optional : bool;
  Required : bool;
  Computed : bool;
  ForceNew : bool;
  Default : option any;
  Description : string;
  Elem : option ValueType;
  ValidateFunc : option SchemaValidateFunc;
  ValidateDiagFunc : option SchemaValidateDiagFunc;
  DiffSuppressFunc : option SchemaDiffSuppressFunc
}.

End schema.

(** ** Metadata field names *)

Definition MetaId : string := "___id___".
Definition MetaResourcePath : string := "___path___".

Definition KeyActualMtu : string := "actual_mtu".
Definition KeyArp : string := "arp".
Definition KeyArpTimeout : string := "arp_timeout".
Definition KeyComment : string := "comment".
Definition KeyDynamic : string := "dynamic".
Definition KeyDisabled : string := "disabled".
Definition KeyFilter : string := "filter".
Definition KeyInterface : string := "interface".
Definition KeyInvalid : string := "invalid".
Definition KeyL2Mtu : string := "l2mtu".
Definition KeyMtu : string := "mtu".
Definition KeyName : string := "name".
Definition KeyPlaceBefore : string := "place_before".
Definition KeyRunning : string := "running".

(** ** Service properties *)

(** [PropResourcePath]: resource path property. *)
Definition PropResourcePath (p : string) : schema.Schema :=
  {| schema.Type_ := schema.TypeString;
     schema.Optional := true;
     schema.Required := false;
     schema.Computed := false;
     schema.ForceNew := false;
     schema.Default := Some (AString p);
     schema.Description :=
       "<em>Resource path for CRUD operations. This is an internal service field, setting a value is not required.</em>";
     schema.Elem := None;
     schema.ValidateFunc := None;
     schema.ValidateDiagFunc := None;
     schema.DiffSuppressFunc := Some (fun k old new d => true) |}.

Section ResourceId.

(** The declaration of [IdType] is not part of this file; [PropId] only
    converts it with [int(t)], so the type and the conversion are taken as
    parameters. *)
Variable IdType : Type.
Variable int : IdType -> Z.

(** [PropId]: resource ID property. *)
Definition PropId (t : IdType) : schema.Schema :=
  {| schema.Type_ := schema.TypeInt;
     schema.Optional := true;
     schema.Required := false;
     schema.Computed := false;
     schema.ForceNew := false;
     schema.Default := Some (AInt (int t));
     schema.Description :=
       "<em>Resource ID type (.id / name). This is an internal service field, setting a value is not required.</em>";
     schema.Elem := None;
     schema.ValidateFunc := None;
     schema.ValidateDiagFunc := None;
     schema.DiffSuppressFunc := Some (fun k old new d => true) |}.

End ResourceId.

(** ** The MTU property *)

(** The [ValidateDiagFunc] closure of [PropMtuRw]. *)
Definition PropMtuRw_validate (i : any) (path : cty.Path)
    : outcome TypeAssertionError diag.Diagnostics :=
  match i with
  | AString v =>
      if String.eqb v "auto" then Return []
      else
        let '(mtu, err) := strconv.ParseInt v 0 64 in
        match err with
        | Some _ =>
            Return [ {| diag.severity := diag.Error;
                        diag.Summary := "Expected MTU value to be integer or 'auto'";
                        diag.Detail := EmptyString |} ]
        | None =>
            if (mtu <? 0) || (mtu >? 65535)
            then Return [ {| diag.severity := diag.Error;
                             diag.Summary :=
                               String.append
                                 "Expected MTU value to be in the range (0 - 65535), got " v;
                             diag.Detail := EmptyString |} ]
            else Return []
        end
  | _ => Panic "interface conversion: interface {} is not string" (NotAString i)
  end.

(** [PropMtuRw]: MTU value can be integer or 'auto'. *)
Definition PropMtuRw : schema.Schema :=
  {| schema.Type_ := schema.TypeString;
     schema.Optional := true;
     schema.Required := false;
     schema.Computed := true;
     schema.ForceNew := false;
     schema.Default := None;
     schema.Description := "Layer3 Maximum transmission unit ('auto', 0 .. 65535)";
     schema.Elem := None;
     schema.ValidateFunc := None;
     schema.ValidateDiagFunc := Some PropMtuRw_validate;
     schema.DiffSuppressFunc := None |}.

(** ** Go's [regexp] package, as far as [MatchString] is concerned

    The regular expressions of the source use literals, character classes,
    groups, alternation, the repetitions [+] and [?], and the anchors [^] and
    [$] (without flags: beginning and end of the text).  [MatchString] reports
    whether some substring of the text matches. *)
Module regexp.

Inductive Regexp : Type :=
| EmptyMatch
| Literal (c : ascii)
| CharClass (ranges : list (ascii * ascii))
| BeginText
| EndText
| Capture (r : Regexp)
| Concat (r1 r2 : Regexp)
| Alternate (r1 r2 : Regexp)
| Star (r : Regexp)
| Plus (r : Regexp)
| Quest (r : Regexp).

(** A byte belongs to a class when one of the inclusive ranges holds it. *)
Definition in_class (ranges : list (ascii * ascii)) (c : ascii) : bool :=
  existsb
    (fun '(lo, hi) =>
       (N_of_ascii lo <=? N_of_ascii c)%N && (N_of_ascii c <=? N_of_ascii hi)%N)
    ranges.

(** Repetition: the positions reachable from [i] by zero or more rounds of
    [step].  A round that consumes nothing reaches nothing new, and a round
    that consumes something moves right, so [fuel] larger than the number of
    bytes left explores every round. *)
Fixpoint iterate (step : nat -> list nat) (fuel : nat) (i : nat) : list nat :=
  match fuel with
  | O => [i]
  | S fuel' =>
      i :: flat_map (fun j => if (i <? j)%nat then iterate step fuel' j else [])
             (step i)
  end.

(** [ends r txt i]: every position [j] such that [r] matches [txt[i:j]] in the
    context of the whole text [txt]. *)
Fixpoint ends (r : Regexp) (txt : list ascii) (i : nat) {struct r} : list nat :=
  match r with
  | EmptyMatch => [i]
  | Literal c =>
      match nth_error txt i with
      | Some c' => if Ascii.eqb c c' then [S i] else []
      | None => []
      end
  | CharClass ranges =>
      match nth_error txt i with
      | Some c' => if in_class ranges c' then [S i] else []
      | None => []
      end
  | BeginText => if (i =? 0)%nat then [i] else []
  | EndText => if (i =? List.length txt)%nat then [i] else []
  | Capture r1 => ends r1 txt i
  | Concat r1 r2 => flat_map (ends r2 txt) (ends r1 txt i)
  | Alternate r1 r2 => ends r1 txt i ++ ends r2 txt i
  | Star r1 => iterate (ends r1 txt) (S (List.length txt)) i
  | Plus r1 =>
      flat_map (iterate (ends r1 txt) (S (List.length txt))) (ends r1 txt i)
  | Quest r1 => ends r1 txt i ++ [i]
  end.

(** [Regexp.MatchString]: a match may start at any position of the text. *)
Definition MatchString (re : Regexp) (s : string) : bool :=
  let txt := list_ascii_of_string s in
  existsb (fun i => match ends re txt i with [] => false | _ => true end)
    (seq 0 (S (List.length txt))).

(** The same notion as a relation: [Matches txt r i j] when [r] matches
    [txt[i:j]] inside [txt].  It is the reference against which [ends] is
    proved to find every match. *)
Inductive Matches (txt : list ascii) : Regexp -> nat -> nat -> Prop :=
| M_Empty i : Matches txt EmptyMatch i i
| M_Literal c i : nth_error txt i = Some c -> Matches txt (Literal c) i (S i)
| M_CharClass ranges c i :
    nth_error txt i = Some c -> in_class ranges c = true ->
    Matches txt (CharClass ranges) i (S i)
| M_BeginText : Matches txt BeginText O O
| M_EndText : Matches txt EndText (List.length txt) (List.length txt)
| M_Capture r i j : Matches txt r i j -> Matches txt (Capture r) i j
| M_Concat r1 r2 i j k :
    Matches txt r1 i j -> Matches txt r2 j k -> Matches txt (Concat r1 r2) i k
| M_AlternateL r1 r2 i j : Matches txt r1 i j -> Matches txt (Alternate r1 r2) i j
| M_AlternateR r1 r2 i j : Matches txt r2 i j -> Matches txt (Alternate r1 r2) i j
| M_StarNil r i : Matches txt (Star r) i i
| M_StarCons r i j k :
    Matches txt r i j -> Matches txt (Star r) j k -> Matches txt (Star r) i k
| M_Plus r i j k :
    Matches txt r i j -> Matches txt (Star r) j k -> Matches txt (Plus r) i k
| M_QuestNone r i : Matches txt (Quest r) i i
| M_QuestSome r i j : Matches txt r i j -> Matches txt (Quest r) i j.

(** [r] matches the part [mid] of the text [pre ++ mid ++ post]. *)
Definition matches_at (r : Regexp) (pre mid post : list ascii) : Prop :=
  Matches (pre ++ mid ++ post) r
    (List.length pre) (List.length pre + List.length mid).

(** Builders for the notation of the source. *)

(** A literal string such as [auto]. *)
Fixpoint lit (s : string) : Regexp :=
  match s with
  | EmptyString => EmptyMatch
  | String c EmptyString => Literal c
  | String c rest => Concat (Literal c) (lit rest)
  end.

(** [\d]. *)
Definition digit : Regexp := CharClass [("0"%char, "9"%char)].

(** A class listing single bytes, such as [[smhdw]]. *)
Definition one_of (s : string) : Regexp :=
  CharClass (List.map (fun c => (c, c)) (list_ascii_of_string s)).

(** [a|b|...]; the source never alternates over nothing. *)
Fixpoint alt (rs : list Regexp) : Regexp :=
  match rs with
  | [] => EmptyMatch
  | [r] => r
  | r :: rest => Alternate r (alt rest)
  end.

(** [abc...]. *)
Fixpoint cat (rs : list Regexp) : Regexp :=
  match rs with
  | [] => EmptyMatch
  | [r] => r
  | r :: rest => Concat r (cat rest)
  end.

End regexp.

(** ** [validation.StringMatch] of the plugin SDK *)
Module validation.

(** [fmt.Sprintf] of the two messages of [StringMatch], as far as the helpers
    reach them (they always give a non-empty [message]). *)
Definition StringMatch (r : regexp.Regexp) (message : string)
    : schema.SchemaValidateFunc :=
  fun i k =>
    match i with
    | AString v =>
        if negb (regexp.MatchString r v)
        then ([], [String.append "invalid value for "
                     (String.append k
                        (String.append " (" (String.append message ")")))])
        else ([], [])
    | _ => ([], [String.append "expected type of "
                   (String.append k " to be string")])
    end.

End validation.

(** ** Validators of duration fields *)

(** The pattern of [PropArpTimeoutRw]:
    [^$|auto$|(\d+(ms|s|M|h|d)?)+$]. *)
Definition ArpTimeout_regexp : regexp.Regexp :=
  regexp.alt
    [ regexp.Concat regexp.BeginText regexp.EndText;
      regexp.Concat (regexp.lit "auto") regexp.EndText;
      regexp.Concat
        (regexp.Plus
           (regexp.Capture
              (regexp.Concat (regexp.Plus regexp.digit)
                 (regexp.Quest
                    (regexp.Capture
                       (regexp.alt
                          [ regexp.lit "ms"; regexp.lit "s"; regexp.lit "M";
                            regexp.lit "h"; regexp.lit "d" ]))))))
        regexp.EndText ].

(** The [ValidateFunc] of [PropArpTimeoutRw]. *)
Definition PropArpTimeoutRw_validate : schema.SchemaValidateFunc :=
  validation.StringMatch ArpTimeout_regexp
    "expected arp_timout value to be 'auto' string or time value".

Definition PropArpTimeoutRw : schema.Schema :=
  {| schema.Type_ := schema.TypeString;
     schema.Optional := true;
     schema.Required := false;
     schema.Computed := false;
     schema.ForceNew := false;
     schema.Default := Some (AString "auto");
     schema.Description :=
       "ARP timeout is time how long ARP record is kept in ARP table after no packets are received from IP. Value auto equals to the value of arp-timeout in IP/Settings, default is 30s. Can use postfix ms, s, M, h, d for milliseconds, seconds, minutes, hours or days. If no postfix is set then seconds (s) is used.";
     schema.Elem := None;
     schema.ValidateFunc := Some PropArpTimeoutRw_validate;
     schema.ValidateDiagFunc := None;
     schema.DiffSuppressFunc := None |}.

(** The pattern of [ValidationTime]: [^(\d+[smhdw]?)+$]. *)
Definition ValidationTime_regexp : regexp.Regexp :=
  regexp.cat
    [ regexp.BeginText;
      regexp.Plus
        (regexp.Capture
           (regexp.Concat (regexp.Plus regexp.digit)
              (regexp.Quest (regexp.one_of "smhdw"))));
      regexp.EndText ].

Definition ValidationTime : schema.SchemaValidateFunc :=
  validation.StringMatch ValidationTime_regexp
    "value must be integer[/time],integer 0..4294967295".

(** ** The address validator *)

(** Patterns that also use the word-boundary assertion [\b].  The other
    operators are those of [regexp.Regexp]; a part of a pattern without the
    assertion is carried as it is. *)
Module regexpx.

Inductive RegexpX : Type :=
| Plain (r : regexp.Regexp)
| WordBoundary
| CaptureX (r : RegexpX)
| ConcatX (r1 r2 : RegexpX)
| AlternateX (r1 r2 : RegexpX).

(** [\w]: an ASCII letter, a digit or the underscore. *)
Definition is_word (c : ascii) : bool :=
  let b := strconv.byte c in
  ((48 <=? b) && (b <=? 57)) || ((65 <=? b) && (b <=? 90))
  || ((97 <=? b) && (b <=? 122)) || (b =? 95).

(** Whether the byte at position [i] is a word byte; there is none past the
    end of the text. *)
Definition word_at (txt : list ascii) (i : nat) : bool :=
  match nth_error txt i with
  | Some c => is_word c
  | None => false
  end.

(** [\b] holds at [i] when exactly one of the bytes before and after [i] is a
    word byte; the start and the end of the text count as non-word. *)
Definition boundary (txt : list ascii) (i : nat) : bool :=
  xorb (match i with O => false | S p => word_at txt p end) (word_at txt i).

Fixpoint ends (r : RegexpX) (txt : list ascii) (i : nat) : list nat :=
  match r with
  | Plain r1 => regexp.ends r1 txt i
  | WordBoundary => if boundary txt i then [i] else []
  | CaptureX r1 => ends r1 txt i
  | ConcatX r1 r2 => flat_map (ends r2 txt) (ends r1 txt i)
  | AlternateX r1 r2 => (ends r1 txt i ++ ends r2 txt i)%list
  end.

Definition MatchString (re : RegexpX) (s : string) : bool :=
  let txt := list_ascii_of_string s in
  existsb (fun i => match ends re txt i with [] => false | _ => true end)
    (seq 0 (S (List.length txt))).

(** [validation.StringMatch] on such a pattern. *)
Definition StringMatch (r : RegexpX) (message : string)
    : schema.SchemaValidateFunc :=
  fun i k =>
    match i with
    | AString v =>
        if negb (MatchString r v)
        then ([], [String.append "invalid value for "
                     (String.append k
                        (String.append " (" (String.append message ")")))])
        else ([], [])
    | _ => ([], [String.append "expected type of "
                   (String.append k " to be string")])
    end.

End regexpx.

(** [25[0-5]|2[0-4][0-9]|[01]?[0-9][0-9]?]: one number of an address. *)
Definition octet_regexp : regexp.Regexp :=
  regexp.alt
    [ regexp.cat [ regexp.lit "25"; regexp.CharClass [("0"%char, "5"%char)] ];
      regexp.cat [ regexp.lit "2"; regexp.CharClass [("0"%char, "4"%char)];
                   regexp.CharClass [("0"%char, "9"%char)] ];
      regexp.cat [ regexp.Quest (regexp.CharClass [("0"%char, "1"%char)]);
                   regexp.CharClass [("0"%char, "9"%char)];
                   regexp.Quest (regexp.CharClass [("0"%char, "9"%char)]) ] ].

(** [(/([1-2][0-9]|3[0-2]))?]: the optional prefix length. *)
Definition prefix_regexp : regexp.Regexp :=
  regexp.Quest
    (regexp.Capture
       (regexp.Concat (regexp.lit "/")
          (regexp.Capture
             (regexp.alt
                [ regexp.cat [ regexp.CharClass [("1"%char, "2"%char)];
                               regexp.CharClass [("0"%char, "9"%char)] ];
                  regexp.cat [ regexp.lit "3";
                               regexp.CharClass [("0"%char, "2"%char)] ] ])))).

(** The part of the address pattern after [\b]; the repetition [{3}] is
    written out, as the [regexp] package does when it compiles a pattern. *)
Definition address_regexp : regexp.Regexp :=
  let dotted := regexp.Concat octet_regexp (regexp.lit ".") in
  regexp.cat [ dotted; dotted; dotted; octet_regexp; prefix_regexp ].

(** The pattern of [ValidationIpAddress]:
    [^$|^(\b(?:(?:25[0-5]|2[0-4][0-9]|[01]?[0-9][0-9]?)\.){3}(?:25[0-5]|2[0-4][0-9]|[01]?[0-9][0-9]?)(/([1-2][0-9]|3[0-2]))?)$]. *)
Definition ValidationIpAddress_regexp : regexpx.RegexpX :=
  regexpx.AlternateX
    (regexpx.Plain (regexp.Concat regexp.BeginText regexp.EndText))
    (regexpx.ConcatX (regexpx.Plain regexp.BeginText)
       (regexpx.ConcatX
          (regexpx.CaptureX
             (regexpx.ConcatX regexpx.WordBoundary
                (regexpx.Plain address_regexp)))
          (regexpx.Plain regexp.EndText))).

Definition ValidationIpAddress : schema.SchemaValidateFunc :=
  regexpx.StringMatch ValidationIpAddress_regexp
    "Allowed addresses must be a CIDR IP address or an empty string".

(** ** Diff suppressors *)

Section DiffSuppress.

(** [ParseDuration] and the type it returns are declared in another file of
    the package.  [TimeEquall] only parses both texts and compares the results
    of the [Seconds] method, so the parser, its error type and [Seconds] are
    parameters of the embedding; [Seconds] yields the exact number of
    seconds. *)
Variable Duration : Type.
Variable DurationError : Type.
Variable ParseDuration : string -> Duration + DurationError.
Variable Seconds : Duration -> Q.

Definition TimeEquall (k old new : string) (d : schema.ResourceData)
    : outcome DurationError bool :=
  if String.eqb old new then Return true
  else if String.eqb old EmptyString || String.eqb new EmptyString
  then Return false
  else
    (* Compare intervals: *)
    match ParseDuration old with
    | inr err => Panic "[TimeEquall] parse 'old' duration error: " err
    | inl oDuration =>
        match ParseDuration new with
        | inr err => Panic "[TimeEquall] parse 'new' duration error: " err
        | inl nDuration =>
            Return (Qeq_bool (Seconds oDuration) (Seconds nDuration))
        end
    end.

(** The five ways through [TimeEquall]. *)
Inductive TimeEquall_path (old new : string)
    : outcome DurationError bool -> Prop :=
| te_same : old = new -> TimeEquall_path old new (Return true)
| te_empty :
    old <> new -> old = EmptyString \/ new = EmptyString ->
    TimeEquall_path old new (Return false)
| te_old_fails err :
    old <> new -> old <> EmptyString -> new <> EmptyString ->
    ParseDuration old = inr err ->
    TimeEquall_path old new (Panic "[TimeEquall] parse 'old' duration error: " err)
| te_new_fails o err :
    old <> new -> old <> EmptyString -> new <> EmptyString ->
    ParseDuration old = inl o -> ParseDuration new = inr err ->
    TimeEquall_path old new (Panic "[TimeEquall] parse 'new' duration error: " err)
| te_compared o n :
    old <> new -> old <> EmptyString -> new <> EmptyString ->
    ParseDuration old = inl o -> ParseDuration new = inl n ->
    TimeEquall_path old new (Return (Qeq_bool (Seconds o) (Seconds n))).

End DiffSuppress.
Arguments TimeEquall {Duration DurationError} ParseDuration Seconds k old new d.
Arguments TimeEquall_path {Duration DurationError} ParseDuration Seconds old new _.

Definition HexEqual (k old new : string) (d : schema.ResourceData)
    : outcome strconv.NumError bool :=
  if String.eqb old new then Return true
  else if String.eqb old EmptyString || String.eqb new EmptyString
  then Return false
  else
    (* Compare numbers: *)
    match strconv.ParseInt old 0 64 with
    | (_, Some err) => Panic "[HexEqual] 'old' number parse error: " err
    | (iOld, None) =>
        match strconv.ParseInt new 0 64 with
        | (_, Some err) => Panic "[HexEqual] 'new' number parse error: " err
        | (iNew, None) => Return (iOld =? iNew)
        end
    end.

(** The five ways through [HexEqual]. *)
Inductive HexEqual_path (old new : string)
    : outcome strconv.NumError bool -> Prop :=
| he_same : old = new -> HexEqual_path old new (Return true)
| he_empty :
    old <> new -> old = EmptyString \/ new = EmptyString ->
    HexEqual_path old new (Return false)
| he_old_fails v err :
    old <> new -> old <> EmptyString -> new <> EmptyString ->
    strconv.ParseInt old 0 64 = (v, Some err) ->
    HexEqual_path old new (Panic "[HexEqual] 'old' number parse error: " err)
| he_new_fails iOld v err :
    old <> new -> old <> EmptyString -> new <> EmptyString ->
    strconv.ParseInt old 0 64 = (iOld, None) ->
    strconv.ParseInt new 0 64 = (v, Some err) ->
    HexEqual_path old new (Panic "[HexEqual] 'new' number parse error: " err)
| he_compared iOld iNew :
    old <> new -> old <> EmptyString -> new <> EmptyString ->
    strconv.ParseInt old 0 64 = (iOld, None) ->
    strconv.ParseInt new 0 64 = (iNew, None) ->
    HexEqual_path old new (Return (iOld =? iNew)).

(** ** Read filters *)

(** [fmt]'s [%v] verb on the values a filter can hold. *)
Definition fmt_v (v : any) : string :=
  match v with
  | AString s => s
  | AInt n => DecimalString.NilZero.string_of_int (Z.to_int n)
  | ABool true => "true"
  | ABool false => "false"
  end.

(** [fmt.Sprintf("%v=%v", fieldName, fieldValue)]. *)
Definition Sprintf_eq (fieldName : string) (fieldValue : any) : string :=
  String.append fieldName (String.append "=" (fmt_v fieldValue)).

(** The body of [buildReadFilter] once the order in which [range] visits the
    entries of the map is fixed: [res] starts as [nil] and grows by one string
    per entry. *)
Definition buildReadFilter_loop (visit : list (string * any)) : list string :=
  fold_left
    (fun res '(fieldName, fieldValue) =>
       (res ++ [Sprintf_eq fieldName fieldValue])%list)
    visit [].

(** Go does not specify the iteration order of [range] over a map, and the
    runtime varies it from one loop to the next: a run of the loop may visit
    the entries in any order, each exactly once. *)
Definition range_order (m : gmap string any) (visit : list (string * any)) : Prop :=
  visit ≡ₚ map_to_list m.

(** [buildReadFilter m] may return [res]. *)
Inductive buildReadFilter (m : gmap string any) : list string -> Prop :=
| buildReadFilter_run (visit : list (string * any)) :
    range_order m visit -> buildReadFilter m (buildReadFilter_loop visit).

(** ** The duration format described by the specification *)
Module DurationModel.

(** Modelled from the spec: the duration type returned by the absent
    [ParseDuration].  Durations count nanoseconds, as Go's [time.Duration]
    does. *)
Definition Duration : Type := Z.

Definition Millisecond : Z := 1000000.
Definition Second : Z := 1000 * Millisecond.
Definition Minute : Z := 60 * Second.
Definition Hour : Z := 60 * Minute.
Definition Day : Z := 24 * Hour.
Definition Week : Z := 7 * Day.

(** Modelled from the spec: the error of the absent [ParseDuration], naming
    the text that is not a duration. *)
Inductive DurationError : Type := InvalidDuration (s : string).

Definition is_digit (c : ascii) : bool :=
  (48 <=? strconv.byte c) && (strconv.byte c <=? 57).

(** Modelled from the spec: the token reader of the absent [ParseDuration].
    It reads the tokens from left to right; [total] is the sum of the tokens
    read so far and [num] the integer of the token being read, if any. *)
Fixpoint scan (s : string) (total : Z) (num : option Z) : option Z :=
  match s with
  | EmptyString =>
      match num with
      | Some n => Some (total + n * Second)
      | None => Some total
      end
  | String c rest =>
      if is_digit c then
        scan rest total
          (Some (10 * (match num with Some n => n | None => 0 end)
                 + (strconv.byte c - 48)))
      else
        match num with
        | None => None
        | Some n =>
            if Ascii.eqb c "m" then
              match rest with
              | String c' rest' =>
                  if Ascii.eqb c' "s" then scan rest' (total + n * Millisecond) None
                  else None
              | EmptyString => None
              end
            else if Ascii.eqb c "s" then scan rest (total + n * Second) None
            else if Ascii.eqb c "M" then scan rest (total + n * Minute) None
            else if Ascii.eqb c "h" then scan rest (total + n * Hour) None
            else if Ascii.eqb c "d" then scan rest (total + n * Day) None
            else if Ascii.eqb c "w" then scan rest (total + n * Week) None
            else None
        end
  end.

(** Modelled from the spec: [ParseDuration] is not among the sources.  The
    specification describes a duration as a sequence of integer-and-unit
    tokens with the units ms, s, M, h, d and w, compared after normalising to
    seconds; the description of the ARP timeout adds that an integer without
    a unit counts seconds.  The empty text and any other text are errors. *)
Definition ParseDuration (s : string) : Duration + DurationError :=
  match s with
  | EmptyString => inr (InvalidDuration s)
  | _ =>
      match scan s 0 None with
      | Some d => inl d
      | None => inr (InvalidDuration s)
      end
  end.

(** Modelled from the spec: the [Seconds] method of the absent duration type,
    the duration as a number of seconds. *)
Definition Seconds (d : Duration) : Q := Qmake d (Z.to_pos Second).

(** [TimeEquall] over the modelled parser. *)
Definition TimeEquall : string -> string -> string -> schema.ResourceData
    -> outcome DurationError bool :=
  TimeEquall ParseDuration Seconds.

End DurationModel.

(** ** Vocabulary of the specification *)

Module strings.

(** Go's [strings.Contains]: [substr] occurs somewhere in [s]. *)
Fixpoint Contains (s substr : string) : bool :=
  String.prefix substr s
  || match s with
     | EmptyString => false
     | String _ rest => Contains rest substr
     end.

End strings.

(** A validator accepts a text when it reports no error for it. *)
Definition accepts (f : schema.SchemaValidateFunc) (v : string) : Prop :=
  forall k, snd (f (AString v) k) = [].

(** A non-empty run of decimal digits. *)
Definition digits (s : string) : Prop :=
  s <> EmptyString /\
  Forall (fun c => DurationModel.is_digit c = true) (list_ascii_of_string s).

(** The duration texts as the specification words them: an integer followed by
    an optional unit is a token, and a text is one token or more, written one
    after the other. *)
Inductive duration_token (units : list string) : string -> Prop :=
| token_bare ds : digits ds -> duration_token units ds
| token_unit ds u :
    digits ds -> In u units -> duration_token units (String.append ds u).

Inductive duration_text (units : list string) : string -> Prop :=
| text_last t : duration_token units t -> duration_text units t
| text_more t s :
    duration_token units t -> duration_text units s ->
    duration_text units (String.append t s).

(** The units the specification lists. *)
Definition spec_units : list string := ["ms"; "s"; "M"; "h"; "d"; "w"].

(** The units [ValidationTime] and the ARP timeout validator name in their
    patterns. *)
Definition ValidationTime_units : list string := ["s"; "m"; "h"; "d"; "w"].
Definition ArpTimeout_units : list string := ["ms"; "s"; "M"; "h"; "d"].

(** A resource with no field set, for the concrete instances below. *)
Definition no_data : schema.ResourceData := schema.mkResourceData ∅.

(** The rendering of one filter entry. *)
Definition render (entry : string * any) : string :=
  Sprintf_eq (fst entry) (snd entry).

(** A filter with the two entries a=1 and b=2. *)
Definition two_filters : gmap string any :=
  <["a" := AString "1"]> (<["b" := AString "2"]> ∅).

(** The number a decimal numeral denotes, read from the left with [acc] the
    value of the digits already read. *)
Fixpoint uint_value (d : Decimal.uint) (acc : Z) : Z :=
  match d with
  | Decimal.Nil => acc
  | Decimal.D0 l => uint_value l (10 * acc)
  | Decimal.D1 l => uint_value l (10 * acc + 1)
  | Decimal.D2 l => uint_value l (10 * acc + 2)
  | Decimal.D3 l => uint_value l (10 * acc + 3)
  | Decimal.D4 l => uint_value l (10 * acc + 4)
  | Decimal.D5 l => uint_value l (10 * acc + 5)
  | Decimal.D6 l => uint_value l (10 * acc + 6)
  | Decimal.D7 l => uint_value l (10 * acc + 7)
  | Decimal.D8 l => uint_value l (10 * acc + 8)
  | Decimal.D9 l => uint_value l (10 * acc + 9)
  end.

(** A numeral that starts with a digit from 1 to 9. *)
Definition leading_nonzero (d : Decimal.uint) : Prop :=
  match d with
  | Decimal.Nil | Decimal.D0 _ => False
  | _ => True
  end.

(** The number a run of decimal digits denotes. *)
Definition digits_value (s : string) : Z :=
  fold_left (fun acc c => 10 * acc + (strconv.byte c - 48))
    (list_ascii_of_string s) 0.

(** One number of a dotted address: one to three digits that denote at most
    255. *)
Definition octet (s : string) : Prop :=
  digits s /\ (String.length s <= 3)%nat /\ digits_value s <= 255.

(** A prefix length as the address pattern admits it: two digits that denote
    a number from 10 to 32. *)
Definition prefix_length (s : string) : Prop :=
  digits s /\ String.length s = 2%nat /\ 10 <= digits_value s <= 32.

(** Four numbers separated by dots. *)
Definition dotted_quad (a b c d : string) : string :=
  String.append a (String.append "." (String.append b (String.append "."
    (String.append c (String.append "." d))))).

(** An address, with or without a prefix length. *)
Definition address_text (s : string) : Prop :=
  exists a b c d, octet a /\ octet b /\ octet c /\ octet d /\
    (s = dotted_quad a b c d \/
     exists p, prefix_length p /\
       s = String.append (dotted_quad a b c d) (String.append "/" p)).

(** The bytes of [txt] from position [i] up to, not including, [j]. *)
Definition between (txt : list ascii) (i j : nat) : list ascii :=
  take (j - i) (drop i txt).

(** * Properties *)

(** ** Service properties *)

(** C8: for every path [p] and every id type [t], the schemas returned by
    [PropResourcePath p] and [PropId t] carry a [DiffSuppressFunc] that
    returns [true] on every [(k, old, new, d)], so a change of the
    [___path___] or [___id___] field is always suppressed; the default value
    of the first is [p] and that of the second is [int(t)]. *)
Theorem service_fields_never_diffed
    (IdType : Type) (int : IdType -> Z) (p : string) (t : IdType) :
  (exists f, schema.DiffSuppressFunc (PropResourcePath p) = Some f /\
             forall k old new d, f k old new d = true) /\
  (exists f, schema.DiffSuppressFunc (PropId IdType int t) = Some f /\
             forall k old new d, f k old new d = true) /\
  schema.Default (PropResourcePath p) = Some (AString p) /\
  schema.Default (PropId IdType int t) = Some (AInt (int t)).
Proof.
  repeat split; try reflexivity.
  - eexists; split; [reflexivity | intros; reflexivity].
  - eexists; split; [reflexivity | intros; reflexivity].
Qed.

(** ** The MTU validator *)

Lemma PropMtuRw_uses_validate :
  schema.ValidateDiagFunc PropMtuRw = Some PropMtuRw_validate.
Proof. reflexivity. Qed.

(** The three ways out of the validator on a string. *)
Lemma PropMtuRw_validate_cases (v : string) (path : cty.Path) :
  (v = "auto" /\ PropMtuRw_validate (AString v) path = Return []) \/
  (v <> "auto" /\ (exists n e, strconv.ParseInt v 0 64 = (n, Some e)) /\
   PropMtuRw_validate (AString v) path =
     Return [diag.mkDiagnostic diag.Error
               "Expected MTU value to be integer or 'auto'" EmptyString]) \/
  (v <> "auto" /\
   exists mtu, strconv.ParseInt v 0 64 = (mtu, None) /\
     ((0 <= mtu <= 65535 /\ PropMtuRw_validate (AString v) path = Return []) \/
      (~ 0 <= mtu <= 65535 /\
       PropMtuRw_validate (AString v) path =
         Return [diag.mkDiagnostic diag.Error
                   (String.append
                      "Expected MTU value to be in the range (0 - 65535), got " v)
                   EmptyString]))).
Proof.
  unfold PropMtuRw_validate.
  destruct (String.eqb v "auto") eqn:Hauto.
  - left. apply String.eqb_eq in Hauto. now split.
  - right. apply String.eqb_neq in Hauto.
    destruct (strconv.ParseInt v 0 64) as [mtu [e|]] eqn:Hparse.
    + left. split; [assumption|]. split; [now exists mtu, e | reflexivity].
    + right. split; [assumption|]. exists mtu. split; [reflexivity|].
      destruct ((mtu <? 0) || (mtu >? 65535)) eqn:Hrange.
      * right. split; [|reflexivity].
        apply orb_true_iff in Hrange as [H|H]; lia.
      * left. split; [|reflexivity].
        apply orb_false_iff in Hrange as [H1 H2]. lia.
Qed.

(** C2: the MTU validator of [PropMtuRw] returns no diagnostics for [v]
    exactly when [v] is the token [auto] or [v] parses (base 0, 64 bits) as an
    integer of the inclusive range 0..65535; on every other string it returns
    one diagnostic of severity [Error].  70000 fails, [auto] and 1500 pass. *)
Theorem mtu_validator_accepts_iff (v : string) (path : cty.Path) :
  (PropMtuRw_validate (AString v) path = Return [] <->
     v = "auto" \/
     exists mtu, strconv.ParseInt v 0 64 = (mtu, None) /\ 0 <= mtu <= 65535) /\
  (PropMtuRw_validate (AString v) path = Return [] \/
   exists summary,
     PropMtuRw_validate (AString v) path =
       Return [diag.mkDiagnostic diag.Error summary EmptyString]) /\
  (exists summary,
     PropMtuRw_validate (AString "70000") path =
       Return [diag.mkDiagnostic diag.Error summary EmptyString]) /\
  PropMtuRw_validate (AString "auto") path = Return [] /\
  PropMtuRw_validate (AString "1500") path = Return [] /\
  schema.ValidateDiagFunc PropMtuRw = Some PropMtuRw_validate.
Proof.
  split; [|split; [|split; [|repeat split]]].
  - destruct (PropMtuRw_validate_cases v path)
      as [[Hv Hr] | [(Hv & (n & e & Hp) & Hr) | (Hv & mtu & Hp & [[Hin Hr] | [Hout Hr]])]];
      rewrite Hr; split; intro H; try discriminate; auto.
    + destruct H as [H | (mtu & Hp' & _)]; [contradiction | congruence].
    + right. now exists mtu.
    + destruct H as [H | (mtu' & Hp' & Hin)]; [contradiction|].
      rewrite Hp in Hp'. inversion Hp'; subst. contradiction.
  - destruct (PropMtuRw_validate_cases v path)
      as [[Hv Hr] | [(Hv & _ & Hr) | (Hv & mtu & Hp & [[Hin Hr] | [Hout Hr]])]];
      rewrite Hr; eauto.
  - eexists. vm_compute. reflexivity.
Qed.

(** C10: the value is parsed with base 0, so spellings that are not decimal
    literals pass the MTU validator when they denote an integer of the range:
    [0x5DC] is read as 1500 and [0b111] as 7, and neither parses in base 10. *)
Theorem mtu_validator_accepts_prefixed_literals (path : cty.Path) :
  PropMtuRw_validate (AString "0x5DC") path = Return [] /\
  PropMtuRw_validate (AString "0b111") path = Return [] /\
  strconv.ParseInt "0x5DC" 0 64 = (1500, None) /\
  strconv.ParseInt "0b111" 0 64 = (7, None) /\
  snd (strconv.ParseInt "0x5DC" 10 64)
    = Some (strconv.syntaxError "ParseInt" "0x5DC") /\
  snd (strconv.ParseInt "0b111" 10 64)
    = Some (strconv.syntaxError "ParseInt" "0b111").
Proof. repeat split; vm_compute; reflexivity. Qed.

(** On the out-of-range branch the summary ends with the offending value. *)
Lemma prefix_refl (v : string) : String.prefix v v = true.
Proof.
  induction v as [|c v IH]; simpl; [reflexivity|].
  destruct (ascii_dec c c); [assumption | contradiction].
Qed.

Lemma Contains_self (v : string) : strings.Contains v v = true.
Proof.
  destruct v as [|c v]; [reflexivity|].
  unfold strings.Contains; fold strings.Contains.
  now rewrite prefix_refl.
Qed.

Lemma Contains_suffix (p v : string) :
  strings.Contains (String.append p v) v = true.
Proof.
  induction p as [|c p IH].
  - change (String.append EmptyString v) with v. apply Contains_self.
  - change (String.append (String c p) v) with (String c (String.append p v)).
    unfold strings.Contains; fold strings.Contains.
    rewrite IH. apply orb_true_r.
Qed.

Lemma mtu_out_of_range_names_value (v : string) (path : cty.Path) (d : diag.Diagnostic) (mtu : Z) :
  strconv.ParseInt v 0 64 = (mtu, None) ->
  PropMtuRw_validate (AString v) path = Return [d] ->
  strings.Contains (diag.Summary d) v = true.
Proof.
  intros Hp Hr.
  destruct (PropMtuRw_validate_cases v path)
    as [[Hv Hr'] | [(Hv & (n & e & Hp') & Hr') | (Hv & mtu' & Hp' & [[Hin Hr'] | [Hout Hr']])]];
    rewrite Hr' in Hr; try discriminate; try congruence.
  injection Hr as <-. cbn [diag.Summary]. apply Contains_suffix.
Qed.

(** C4: every error of the MTU validator should name the offending value.
    The out-of-range branch does ([70000] is in its message); the branch taken
    when the value is not an integer does not: for [abc] the only diagnostic
    is the fixed text, in which [abc] does not occur. *)
Theorem mtu_not_integer_error_omits_value (path : cty.Path) :
  PropMtuRw_validate (AString "abc") path =
    Return [diag.mkDiagnostic diag.Error
              "Expected MTU value to be integer or 'auto'" EmptyString] /\
  strings.Contains "Expected MTU value to be integer or 'auto'" "abc" = false /\
  PropMtuRw_validate (AString "70000") path =
    Return [diag.mkDiagnostic diag.Error
              "Expected MTU value to be in the range (0 - 65535), got 70000"
              EmptyString] /\
  strings.Contains
    "Expected MTU value to be in the range (0 - 65535), got 70000" "70000" = true.
Proof. repeat split; vm_compute; reflexivity. Qed.

(** ** Diff suppressors *)

Lemma Qeq_bool_sym (x y : Q) : Qeq_bool x y = Qeq_bool y x.
Proof.
  destruct (Qeq_bool x y) eqn:Hxy, (Qeq_bool y x) eqn:Hyx; try reflexivity.
  - apply Qeq_bool_iff in Hxy. symmetry in Hxy.
    apply Qeq_bool_iff in Hxy. congruence.
  - apply Qeq_bool_iff in Hyx. symmetry in Hyx.
    apply Qeq_bool_iff in Hyx. congruence.
Qed.

Lemma eqb_string_sym (a b : string) : String.eqb a b = String.eqb b a.
Proof.
  destruct (String.eqb a b) eqn:Hab; symmetry.
  - apply String.eqb_eq in Hab. subst. apply String.eqb_refl.
  - apply String.eqb_neq in Hab. apply String.eqb_neq. congruence.
Qed.

Section TimeEquallFacts.

Context {Duration DurationError : Type}.
Variable ParseDuration : string -> Duration + DurationError.
Variable Seconds : Duration -> Q.

Lemma TimeEquall_takes_path (k old new : string) (d : schema.ResourceData) :
  TimeEquall_path ParseDuration Seconds old new
    (TimeEquall ParseDuration Seconds k old new d).
Proof.
  unfold TimeEquall.
  destruct (String.eqb old new) eqn:Heq.
  { apply String.eqb_eq in Heq. now constructor. }
  apply String.eqb_neq in Heq.
  destruct (String.eqb old EmptyString) eqn:Ho.
  { apply String.eqb_eq in Ho. cbn. constructor; auto. }
  destruct (String.eqb new EmptyString) eqn:Hn.
  { apply String.eqb_eq in Hn. cbn. constructor; auto. }
  apply String.eqb_neq in Ho, Hn. cbn.
  destruct (ParseDuration old) as [o|e] eqn:Hpo.
  - destruct (ParseDuration new) as [n|e] eqn:Hpn.
    + now apply te_compared.
    + now apply te_new_fails with o.
  - now apply te_old_fails.
Qed.

Lemma TimeEquall_same (k a : string) (d : schema.ResourceData) :
  TimeEquall ParseDuration Seconds k a a d = Return true.
Proof. unfold TimeEquall. now rewrite String.eqb_refl. Qed.

Lemma TimeEquall_empty (k old new : string) (d : schema.ResourceData) :
  old <> new -> old = EmptyString \/ new = EmptyString ->
  TimeEquall ParseDuration Seconds k old new d = Return false.
Proof.
  intros Hne He. apply String.eqb_neq in Hne.
  unfold TimeEquall. rewrite Hne.
  destruct He as [-> | ->]; [reflexivity|].
  rewrite String.eqb_refl, orb_true_r. reflexivity.
Qed.

Lemma TimeEquall_parsed (k old new : string) (d : schema.ResourceData) (o n : Duration) :
  old <> EmptyString -> new <> EmptyString -> old <> new ->
  ParseDuration old = inl o -> ParseDuration new = inl n ->
  TimeEquall ParseDuration Seconds k old new d
    = Return (Qeq_bool (Seconds o) (Seconds n)).
Proof.
  intros Ho Hn Hne Hpo Hpn.
  apply String.eqb_neq in Ho, Hn, Hne.
  unfold TimeEquall. rewrite Hne, Ho, Hn, Hpo, Hpn. reflexivity.
Qed.

Lemma TimeEquall_sym (k a b : string) (d : schema.ResourceData) (x y : bool) :
  TimeEquall ParseDuration Seconds k a b d = Return x ->
  TimeEquall ParseDuration Seconds k b a d = Return y -> x = y.
Proof.
  intros Hab Hba.
  pose proof (TimeEquall_takes_path k a b d) as Hp. rewrite Hab in Hp.
  inversion Hp as [E|Hne He| | |o n Hne Ha Hb Hpa Hpb]; subst.
  - congruence.
  - rewrite (TimeEquall_empty k b a d) in Hba; [congruence | congruence | tauto].
  - rewrite (TimeEquall_parsed k b a d n o) in Hba by auto.
    rewrite Qeq_bool_sym in Hba. congruence.
Qed.

End TimeEquallFacts.

Lemma HexEqual_takes_path (k old new : string) (d : schema.ResourceData) :
  HexEqual_path old new (HexEqual k old new d).
Proof.
  unfold HexEqual.
  destruct (String.eqb old new) eqn:Heq.
  { apply String.eqb_eq in Heq. now constructor. }
  apply String.eqb_neq in Heq.
  destruct (String.eqb old EmptyString) eqn:Ho.
  { apply String.eqb_eq in Ho. cbn. constructor; auto. }
  destruct (String.eqb new EmptyString) eqn:Hn.
  { apply String.eqb_eq in Hn. cbn. constructor; auto. }
  apply String.eqb_neq in Ho, Hn. cbn [orb].
  destruct (strconv.ParseInt old 0 64) as [iOld [e|]] eqn:Hpo.
  - now apply he_old_fails with iOld.
  - destruct (strconv.ParseInt new 0 64) as [iNew [e|]] eqn:Hpn.
    + now apply he_new_fails with iOld iNew.
    + now apply he_compared.
Qed.

Lemma HexEqual_same (k a : string) (d : schema.ResourceData) :
  HexEqual k a a d = Return true.
Proof. unfold HexEqual. now rewrite String.eqb_refl. Qed.

Lemma HexEqual_empty (k old new : string) (d : schema.ResourceData) :
  old <> new -> old = EmptyString \/ new = EmptyString ->
  HexEqual k old new d = Return false.
Proof.
  intros Hne He. apply String.eqb_neq in Hne.
  unfold HexEqual. rewrite Hne.
  destruct He as [-> | ->]; [reflexivity|].
  rewrite String.eqb_refl, orb_true_r. reflexivity.
Qed.

Lemma HexEqual_parsed (k old new : string) (d : schema.ResourceData) (iOld iNew : Z) :
  old <> EmptyString -> new <> EmptyString -> old <> new ->
  strconv.ParseInt old 0 64 = (iOld, None) ->
  strconv.ParseInt new 0 64 = (iNew, None) ->
  HexEqual k old new d = Return (iOld =? iNew).
Proof.
  intros Ho Hn Hne Hpo Hpn.
  apply String.eqb_neq in Ho, Hn, Hne.
  unfold HexEqual. rewrite Hne, Ho, Hn, Hpo, Hpn. reflexivity.
Qed.

Lemma HexEqual_sym (k a b : string) (d : schema.ResourceData) (x y : bool) :
  HexEqual k a b d = Return x -> HexEqual k b a d = Return y -> x = y.
Proof.
  intros Hab Hba.
  pose proof (HexEqual_takes_path k a b d) as Hp. rewrite Hab in Hp.
  inversion Hp as [E|Hne He| | |iOld iNew Hne Ha Hb Hpa Hpb]; subst.
  - congruence.
  - rewrite (HexEqual_empty k b a d) in Hba; [congruence | congruence | tauto].
  - rewrite (HexEqual_parsed k b a d iNew iOld) in Hba by auto.
    rewrite Z.eqb_sym in Hba. congruence.
Qed.

(** C7: hex-encoded fields are suppressed numerically, not textually.  For
    non-empty [a] and [b] that both parse as 64-bit integers in base-0
    notation, [HexEqual] returns, and returns [true] exactly when the two
    parsed integers are equal; [0x10] against [16] gives [true] and [0x10]
    against [17] gives [false]. *)
Theorem HexEqual_compares_numbers (k a b : string) (d : schema.ResourceData) :
  (forall iOld iNew : Z,
     a <> EmptyString -> b <> EmptyString ->
     strconv.ParseInt a 0 64 = (iOld, None) ->
     strconv.ParseInt b 0 64 = (iNew, None) ->
     HexEqual k a b d = Return (iOld =? iNew) /\
     (HexEqual k a b d = Return true <-> iOld = iNew)) /\
  HexEqual k "0x10" "16" d = Return true /\
  HexEqual k "0x10" "17" d = Return false.
Proof.
  split; [|split; reflexivity].
  intros iOld iNew Ha Hb Hpa Hpb.
  assert (Hr : HexEqual k a b d = Return (iOld =? iNew)).
  { destruct (string_dec a b) as [->|Hne].
    - rewrite HexEqual_same. rewrite Hpa in Hpb.
      injection Hpb as ->. now rewrite Z.eqb_refl.
    - now apply HexEqual_parsed. }
  split; [exact Hr|]. rewrite Hr. split.
  - intros H. injection H as H. now apply Z.eqb_eq.
  - intros ->. now rewrite Z.eqb_refl.
Qed.

Lemma HexEqual_compares_numbers_witness :
  "0x1F" <> EmptyString /\ "31" <> EmptyString /\
  strconv.ParseInt "0x1F" 0 64 = (31, None) /\
  strconv.ParseInt "31" 0 64 = (31, None) /\
  HexEqual "mac" "0x1F" "31" no_data = Return (31 =? 31) /\
  (HexEqual "mac" "0x1F" "31" no_data = Return true <-> 31 = 31).
Proof.
  split; [discriminate|]. split; [discriminate|].
  split; [reflexivity|]. split; [reflexivity|].
  apply (proj1 (HexEqual_compares_numbers "mac" "0x1F" "31" no_data) 31 31);
    [discriminate | discriminate | reflexivity | reflexivity].
Defined.

(** C9: the suppressors behave as equivalence tests where they return.
    [TimeEquall k a a d] and [HexEqual k a a d] are [true] for every [a], and
    whenever both argument orders return without panicking they return the
    same answer.  This holds whatever [ParseDuration] is. *)
Theorem suppressors_reflexive_symmetric
    {Duration DurationError : Type}
    (ParseDuration : string -> Duration + DurationError)
    (Seconds : Duration -> Q)
    (k a b : string) (d : schema.ResourceData) :
  TimeEquall ParseDuration Seconds k a a d = Return true /\
  HexEqual k a a d = Return true /\
  (forall x y : bool,
     TimeEquall ParseDuration Seconds k a b d = Return x ->
     TimeEquall ParseDuration Seconds k b a d = Return y -> x = y) /\
  (forall x y : bool,
     HexEqual k a b d = Return x -> HexEqual k b a d = Return y -> x = y).
Proof.
  split; [apply TimeEquall_same|].
  split; [apply HexEqual_same|].
  split; intros x y; [apply TimeEquall_sym | apply HexEqual_sym].
Qed.

Lemma suppressors_reflexive_symmetric_witness :
  DurationModel.TimeEquall "interval" "1h" "60M" no_data = Return true /\
  DurationModel.TimeEquall "interval" "60M" "1h" no_data = Return true /\
  HexEqual "mac" "0x10" "17" no_data = Return false /\
  HexEqual "mac" "17" "0x10" no_data = Return false /\
  true = true /\ false = false.
Proof.
  split; [reflexivity|]. split; [reflexivity|].
  split; [reflexivity|]. split; [reflexivity|].
  pose proof (suppressors_reflexive_symmetric
                DurationModel.ParseDuration DurationModel.Seconds
                "interval" "1h" "60M" no_data) as (_ & _ & Ht & _).
  pose proof (suppressors_reflexive_symmetric
                DurationModel.ParseDuration DurationModel.Seconds
                "mac" "0x10" "17" no_data) as (_ & _ & _ & Hh).
  split; [apply Ht | apply Hh]; reflexivity.
Defined.

(** C6: [TimeEquall] and [HexEqual] return (do not panic) when the two
    texts are equal, when either is empty, or when both parse under the
    expected format; a panic implies that both texts are non-empty, differ,
    and at least one of them fails to parse.  This holds whatever
    [ParseDuration] is. *)
Theorem suppressors_panic_only_on_unparsable
    {Duration DurationError : Type}
    (ParseDuration : string -> Duration + DurationError)
    (Seconds : Duration -> Q)
    (k old new : string) (d : schema.ResourceData) :
  (old = new \/ old = EmptyString \/ new = EmptyString \/
   (exists o n, ParseDuration old = inl o /\ ParseDuration new = inl n) ->
   exists r, TimeEquall ParseDuration Seconds k old new d = Return r) /\
  (forall msg err,
     TimeEquall ParseDuration Seconds k old new d = Panic msg err ->
     old <> EmptyString /\ new <> EmptyString /\ old <> new /\
     (ParseDuration old = inr err \/ ParseDuration new = inr err)) /\
  (old = new \/ old = EmptyString \/ new = EmptyString \/
   (exists iOld iNew, strconv.ParseInt old 0 64 = (iOld, None) /\
                      strconv.ParseInt new 0 64 = (iNew, None)) ->
   exists r, HexEqual k old new d = Return r) /\
  (forall msg err,
     HexEqual k old new d = Panic msg err ->
     old <> EmptyString /\ new <> EmptyString /\ old <> new /\
     ((exists v, strconv.ParseInt old 0 64 = (v, Some err)) \/
      (exists v, strconv.ParseInt new 0 64 = (v, Some err)))).
Proof.
  split; [|split; [|split]].
  - intros H.
    destruct (TimeEquall_takes_path ParseDuration Seconds k old new d)
      as [E|Hne He|e Hne Ho Hn Hpo|o e Hne Ho Hn Hpo Hpn|o n Hne Ho Hn Hpo Hpn];
      eauto;
      destruct H as [H | [H | [H | (o' & n' & Ho' & Hn')]]]; congruence.
  - intros msg err H.
    pose proof (TimeEquall_takes_path ParseDuration Seconds k old new d) as Hp.
    rewrite H in Hp. inversion Hp; subst; auto.
  - intros H.
    destruct (HexEqual_takes_path k old new d)
      as [E|Hne He|v e Hne Ho Hn Hpo|o v e Hne Ho Hn Hpo Hpn|o n Hne Ho Hn Hpo Hpn];
      eauto;
      destruct H as [H | [H | [H | (o' & n' & Ho' & Hn')]]]; congruence.
  - intros msg err H.
    pose proof (HexEqual_takes_path k old new d) as Hp.
    rewrite H in Hp. inversion Hp; subst; eauto 8.
Qed.

Lemma suppressors_panic_only_on_unparsable_witness :
  (exists r, DurationModel.TimeEquall "interval" "1h" "3600s" no_data = Return r) /\
  (exists r, HexEqual "mac" "0x10" "16" no_data = Return r) /\
  ("1h" <> EmptyString /\ "soon" <> EmptyString /\ "1h" <> "soon" /\
   (DurationModel.ParseDuration "1h" = inr (DurationModel.InvalidDuration "soon") \/
    DurationModel.ParseDuration "soon" = inr (DurationModel.InvalidDuration "soon"))) /\
  ("0x10" <> EmptyString /\ "0xZ" <> EmptyString /\ "0x10" <> "0xZ" /\
   ((exists v, strconv.ParseInt "0x10" 0 64
               = (v, Some (strconv.syntaxError "ParseInt" "0xZ"))) \/
    (exists v, strconv.ParseInt "0xZ" 0 64
               = (v, Some (strconv.syntaxError "ParseInt" "0xZ"))))).
Proof.
  pose proof (suppressors_panic_only_on_unparsable
                DurationModel.ParseDuration DurationModel.Seconds
                "interval" "1h" "3600s" no_data) as (Ht & _ & _ & _).
  pose proof (suppressors_panic_only_on_unparsable
                DurationModel.ParseDuration DurationModel.Seconds
                "mac" "0x10" "16" no_data) as (_ & _ & Hh & _).
  pose proof (suppressors_panic_only_on_unparsable
                DurationModel.ParseDuration DurationModel.Seconds
                "interval" "1h" "soon" no_data) as (_ & Htp & _ & _).
  pose proof (suppressors_panic_only_on_unparsable
                DurationModel.ParseDuration DurationModel.Seconds
                "mac" "0x10" "0xZ" no_data) as (_ & _ & _ & Hhp).
  split.
  { apply Ht. right; right; right. eexists _, _. split; reflexivity. }
  split.
  { apply Hh. right; right; right. eexists _, _. split; reflexivity. }
  split.
  { apply (Htp "[TimeEquall] parse 'new' duration error: "). reflexivity. }
  apply (Hhp "[HexEqual] 'new' number parse error: "). reflexivity.
Defined.

(** The exact number of seconds separates the modelled durations. *)
Lemma Seconds_eq_iff (o n : DurationModel.Duration) :
  Qeq (DurationModel.Seconds o) (DurationModel.Seconds n) <-> o = n.
Proof.
  unfold DurationModel.Seconds, Qeq. cbn [Qnum Qden].
  split; [|now intros ->].
  intros H. apply Z.mul_cancel_r in H; [assumption | discriminate].
Qed.

(** C1: the duration suppressor compares by normalised seconds, not by text.
    For non-empty, textually different [old] and [new] that both parse as
    durations, [TimeEquall] returns, and returns [true] exactly when the two
    durations are the same number of seconds (whatever [ParseDuration] is);
    with the duration format of the specification, [1h] against [3600s] gives
    [true] and [1h] against [2h] gives [false]. *)
Theorem TimeEquall_compares_seconds
    {Duration DurationError : Type}
    (ParseDuration : string -> Duration + DurationError)
    (Seconds : Duration -> Q)
    (k old new : string) (d : schema.ResourceData) :
  (forall o n : Duration,
     old <> EmptyString -> new <> EmptyString -> old <> new ->
     ParseDuration old = inl o -> ParseDuration new = inl n ->
     (exists r, TimeEquall ParseDuration Seconds k old new d = Return r) /\
     (TimeEquall ParseDuration Seconds k old new d = Return true <->
      Qeq (Seconds o) (Seconds n))) /\
  DurationModel.TimeEquall k "1h" "3600s" d = Return true /\
  DurationModel.TimeEquall k "1h" "2h" d = Return false.
Proof.
  split; [|split; reflexivity].
  intros o n Ho Hn Hne Hpo Hpn.
  rewrite (TimeEquall_parsed _ _ k old new d o n) by assumption.
  split; [eauto|]. rewrite <- Qeq_bool_iff.
  split; [now intros [=] | now intros ->].
Qed.

Lemma TimeEquall_compares_seconds_witness :
  "90" <> EmptyString /\ "1M30s" <> EmptyString /\ "90" <> "1M30s" /\
  DurationModel.ParseDuration "90" = inl (90 * DurationModel.Second) /\
  DurationModel.ParseDuration "1M30s" = inl (90 * DurationModel.Second) /\
  (exists r, DurationModel.TimeEquall "interval" "90" "1M30s" no_data = Return r) /\
  (DurationModel.TimeEquall "interval" "90" "1M30s" no_data = Return true <->
   Qeq (DurationModel.Seconds (90 * DurationModel.Second))
       (DurationModel.Seconds (90 * DurationModel.Second))).
Proof.
  split; [discriminate|]. split; [discriminate|]. split; [discriminate|].
  split; [reflexivity|]. split; [reflexivity|].
  apply (proj1 (TimeEquall_compares_seconds
                  DurationModel.ParseDuration DurationModel.Seconds
                  "interval" "90" "1M30s" no_data));
    [discriminate | discriminate | discriminate | reflexivity | reflexivity].
Defined.

(** ** Read filters *)

Lemma buildReadFilter_loop_from (visit : list (string * any)) (res : list string) :
  fold_left
    (fun res '(fieldName, fieldValue) =>
       (res ++ [Sprintf_eq fieldName fieldValue])%list)
    visit res
  = (res ++ List.map render visit)%list.
Proof.
  revert res. induction visit as [|[fieldName fieldValue] visit IH]; intros res.
  - cbn. now rewrite app_nil_r.
  - cbn [fold_left List.map]. rewrite IH. now rewrite <- app_assoc.
Qed.

Lemma buildReadFilter_loop_map (visit : list (string * any)) :
  buildReadFilter_loop visit = render <$> visit.
Proof. unfold buildReadFilter_loop. now rewrite buildReadFilter_loop_from. Qed.

Lemma two_filters_entries :
  map_to_list two_filters ≡ₚ [("a", AString "1"); ("b", AString "2")].
Proof.
  unfold two_filters.
  rewrite map_to_list_insert by (rewrite lookup_insert_ne; [apply lookup_empty | discriminate]).
  rewrite map_to_list_insert by apply lookup_empty.
  now rewrite map_to_list_empty.
Qed.

Lemma two_filters_run_ab : buildReadFilter two_filters ["a=1"; "b=2"].
Proof.
  change ["a=1"; "b=2"]
    with (buildReadFilter_loop [("a", AString "1"); ("b", AString "2")]).
  constructor. unfold range_order. now rewrite two_filters_entries.
Qed.

Lemma two_filters_run_ba : buildReadFilter two_filters ["b=2"; "a=1"].
Proof.
  change ["b=2"; "a=1"]
    with (buildReadFilter_loop [("b", AString "2"); ("a", AString "1")]).
  constructor. unfold range_order. rewrite two_filters_entries.
  apply Permutation_swap.
Qed.

(** C5, as stated, fails: on the filter with the entries a=1 and b=2 one run
    of [buildReadFilter] returns [a=1; b=2] and another returns [b=2; a=1],
    so two calls on equal maps need not return equal sequences. *)
Lemma buildReadFilter_order_varies :
  buildReadFilter two_filters ["a=1"; "b=2"] /\
  buildReadFilter two_filters ["b=2"; "a=1"] /\
  ["a=1"; "b=2"] <> ["b=2"; "a=1"].
Proof.
  split; [apply two_filters_run_ab|].
  split; [apply two_filters_run_ba | discriminate].
Qed.

(** C5, amended: [buildReadFilter] returns on every filter map; whatever it
    returns holds exactly one string [name=value] per entry of the map and
    nothing else (it is a rearrangement of the renderings of the entries, as
    long as the map has entries); and two calls on equal maps return the same
    strings, possibly in a different order. *)
Theorem buildReadFilter_one_string_per_entry (m : gmap string any) :
  (exists res, buildReadFilter m res) /\
  (forall res, buildReadFilter m res ->
     res ≡ₚ render <$> map_to_list m /\ List.length res = size m) /\
  (forall res1 res2,
     buildReadFilter m res1 -> buildReadFilter m res2 -> res1 ≡ₚ res2).
Proof.
  assert (Hone : forall res, buildReadFilter m res ->
                   res ≡ₚ render <$> map_to_list m).
  { intros res [visit Hvisit]. rewrite buildReadFilter_loop_map.
    unfold range_order in Hvisit. now rewrite Hvisit. }
  split; [|split].
  - exists (buildReadFilter_loop (map_to_list m)). constructor.
    unfold range_order. reflexivity.
  - intros res Hres. split; [now apply Hone|].
    rewrite (Permutation_length (Hone res Hres)).
    now rewrite length_fmap, length_map_to_list.
  - intros res1 res2 H1 H2. now rewrite (Hone res1 H1), (Hone res2 H2).
Qed.

Lemma buildReadFilter_one_string_per_entry_witness :
  ["b=2"; "a=1"] ≡ₚ ["a=1"; "b=2"].
Proof.
  apply (proj2 (proj2 (buildReadFilter_one_string_per_entry two_filters)));
    [apply two_filters_run_ba | apply two_filters_run_ab].
Defined.

(** ** The matcher finds every match *)

Section MatcherComplete.

Variable txt : list ascii.

Lemma iterate_bounds (step : nat -> list nat) (n : nat) :
  (forall a b, (a <= n)%nat -> In b (step a) -> (a <= b <= n)%nat) ->
  forall fuel i k, (i <= n)%nat -> In k (regexp.iterate step fuel i) ->
    (i <= k <= n)%nat.
Proof.
  intros Hstep. induction fuel as [|fuel IH]; intros i k Hi Hk.
  - cbn in Hk. destruct Hk as [<-|[]]. lia.
  - cbn [regexp.iterate] in Hk. destruct Hk as [<-|Hk]; [lia|].
    apply in_flat_map in Hk as (j & Hj & Hk).
    destruct (Hstep i j Hi Hj) as [Hij Hjn].
    destruct (i <? j)%nat; [|contradiction].
    specialize (IH j k Hjn Hk). lia.
Qed.

Lemma ends_bounds (r : regexp.Regexp) :
  forall i j, (i <= List.length txt)%nat -> In j (regexp.ends r txt i) ->
    (i <= j <= List.length txt)%nat.
Proof.
  induction r as [|c|ranges| | |r IH|r1 IH1 r2 IH2|r1 IH1 r2 IH2|r IH|r IH|r IH];
    intros i j Hi Hj; cbn [regexp.ends] in Hj.
  - destruct Hj as [<-|[]]. lia.
  - destruct (nth_error txt i) as [c'|] eqn:Hnth; [|contradiction].
    assert (i < List.length txt)%nat by (apply nth_error_Some; congruence).
    destruct (Ascii.eqb c c'); [|contradiction].
    destruct Hj as [<-|[]]. lia.
  - destruct (nth_error txt i) as [c'|] eqn:Hnth; [|contradiction].
    assert (i < List.length txt)%nat by (apply nth_error_Some; congruence).
    destruct (regexp.in_class ranges c'); [|contradiction].
    destruct Hj as [<-|[]]. lia.
  - destruct (i =? 0)%nat; [|contradiction]. destruct Hj as [<-|[]]. lia.
  - destruct (i =? List.length txt)%nat; [|contradiction].
    destruct Hj as [<-|[]]. lia.
  - now apply IH.
  - apply in_flat_map in Hj as (m & Hm & Hj).
    specialize (IH1 i m Hi Hm). specialize (IH2 m j (proj2 IH1) Hj). lia.
  - apply in_app_or in Hj as [Hj|Hj]; [now apply IH1 | now apply IH2].
  - now apply (iterate_bounds _ _ IH) in Hj.
  - apply in_flat_map in Hj as (m & Hm & Hj).
    pose proof (IH i m Hi Hm) as Him.
    apply (iterate_bounds _ _ IH) in Hj; lia.
  - apply in_app_or in Hj as [Hj|[<-|[]]]; [now apply IH | lia].
Qed.

Lemma iterate_sound (step : nat -> list nat) :
  forall fuel i k, In k (regexp.iterate step fuel i) ->
    rtc (fun a b => In b (step a)) i k.
Proof.
  induction fuel as [|fuel IH]; intros i k Hk.
  - cbn in Hk. destruct Hk as [<-|[]]. constructor.
  - cbn [regexp.iterate] in Hk. destruct Hk as [<-|Hk]; [constructor|].
    apply in_flat_map in Hk as (j & Hj & Hk).
    destruct (i <? j)%nat; [|contradiction].
    eapply rtc_l; [exact Hj | now apply IH].
Qed.

Lemma iterate_complete (step : nat -> list nat) (n : nat) :
  (forall a b, (a <= n)%nat -> In b (step a) -> (a <= b <= n)%nat) ->
  forall i k, rtc (fun a b => In b (step a)) i k -> (i <= n)%nat ->
  forall fuel, (n - i < fuel)%nat -> In k (regexp.iterate step fuel i).
Proof.
  intros Hstep i k Hreach.
  induction Hreach as [i|i j k Hij Hjk IH]; intros Hi fuel Hfuel.
  - destruct fuel; cbn; auto.
  - destruct (Hstep i j Hi Hij) as [Hle Hjn].
    destruct (Nat.eq_dec i j) as [->|Hne]; [now apply IH|].
    destruct fuel as [|fuel]; [lia|].
    cbn [regexp.iterate]. right. apply in_flat_map. exists j. split; [assumption|].
    replace (i <? j)%nat with true by (symmetry; apply Nat.ltb_lt; lia).
    apply IH; [assumption | lia].
Qed.

(** Whatever matches according to [Matches] is found by [ends]. *)
Lemma ends_complete (r : regexp.Regexp) (i j : nat) :
  regexp.Matches txt r i j -> (i <= List.length txt)%nat ->
  In j (regexp.ends r txt i).
Proof.
  induction 1 as [i|c i Hc|ranges c i Hc Hin| | |r i j _ IH
                 |r1 r2 i j k _ IH1 H2 IH2|r1 r2 i j _ IH|r1 r2 i j _ IH
                 |r i|r i j k _ IH1 _ IH2|r i j k _ IH1 _ IH2|r i|r i j _ IH];
    intros Hi; cbn [regexp.ends].
  - now left.
  - rewrite Hc, Ascii.eqb_refl. now left.
  - rewrite Hc, Hin. now left.
  - now left.
  - rewrite Nat.eqb_refl. now left.
  - now apply IH.
  - apply in_flat_map. exists j. split; [now apply IH1|].
    apply IH2. now apply (ends_bounds r1 i j Hi), IH1.
  - apply in_or_app. left. now apply IH.
  - apply in_or_app. right. now apply IH.
  - now left.
  - specialize (IH1 Hi).
    pose proof (ends_bounds r i j Hi IH1) as [_ Hj].
    specialize (IH2 Hj). cbn [regexp.ends] in IH2.
    apply (iterate_complete _ _ (ends_bounds r)); [|assumption|lia].
    eapply rtc_l; [exact IH1 | now apply iterate_sound in IH2].
  - specialize (IH1 Hi).
    pose proof (ends_bounds r i j Hi IH1) as [_ Hj].
    apply in_flat_map. exists j. split; [assumption|]. now apply IH2.
  - apply in_or_app. right. now left.
  - apply in_or_app. left. now apply IH.
Qed.

End MatcherComplete.

(** A match anywhere in the text makes [MatchString] answer [true]. *)
Lemma MatchString_of_matches_at (r : regexp.Regexp) (s : string) (pre mid post : list ascii) :
  list_ascii_of_string s = (pre ++ mid ++ post)%list ->
  regexp.matches_at r pre mid post ->
  regexp.MatchString r s = true.
Proof.
  intros Hs Hm. unfold regexp.MatchString, regexp.matches_at in *.
  rewrite Hs. apply existsb_exists. exists (List.length pre).
  assert (Hle : (List.length pre <= List.length (pre ++ mid ++ post))%nat)
    by (rewrite List.length_app; lia).
  split; [apply in_seq; lia|].
  apply ends_complete in Hm; [|assumption].
  destruct (regexp.ends r (pre ++ mid ++ post) (List.length pre));
    [contradiction | reflexivity].
Qed.

(** ** Building matches piece by piece *)

Lemma Matches_cast (txt txt' : list ascii) (r : regexp.Regexp) (i i' j j' : nat) :
  txt = txt' -> i = i' -> j = j' ->
  regexp.Matches txt r i j -> regexp.Matches txt' r i' j'.
Proof. now intros -> -> ->. Qed.

Ltac cast_match H :=
  eapply Matches_cast; [ | | | exact H];
  [ repeat rewrite <- app_assoc; reflexivity
  | repeat rewrite List.length_app; cbn [List.length]; lia
  | repeat rewrite List.length_app; cbn [List.length]; lia ].

Section MatchesAt.

Import regexp.

Lemma ma_literal (c : ascii) (pre post : list ascii) :
  matches_at (Literal c) pre [c] post.
Proof.
  unfold matches_at. cbn [List.length].
  replace (List.length pre + 1)%nat with (S (List.length pre)) by lia.
  constructor. rewrite nth_error_app2 by lia. now rewrite Nat.sub_diag.
Qed.

Lemma ma_class (ranges : list (ascii * ascii)) (c : ascii) (pre post : list ascii) :
  in_class ranges c = true -> matches_at (CharClass ranges) pre [c] post.
Proof.
  intros Hin. unfold matches_at. cbn [List.length].
  replace (List.length pre + 1)%nat with (S (List.length pre)) by lia.
  apply M_CharClass with c; [|assumption].
  rewrite nth_error_app2 by lia. now rewrite Nat.sub_diag.
Qed.

Lemma ma_begin (post : list ascii) : matches_at BeginText [] [] post.
Proof. unfold matches_at. cbn. constructor. Qed.

Lemma ma_end (pre : list ascii) : matches_at EndText pre [] [].
Proof.
  unfold matches_at. cbn [List.length app].
  eapply Matches_cast; [reflexivity | | | apply M_EndText];
    rewrite List.length_app; cbn; lia.
Qed.

Lemma ma_capture (r : Regexp) (pre mid post : list ascii) :
  matches_at r pre mid post -> matches_at (Capture r) pre mid post.
Proof. unfold matches_at. now constructor. Qed.

Lemma ma_concat (r1 r2 : Regexp) (pre m1 m2 post : list ascii) :
  matches_at r1 pre m1 (m2 ++ post) -> matches_at r2 (pre ++ m1) m2 post ->
  matches_at (Concat r1 r2) pre (m1 ++ m2) post.
Proof.
  unfold matches_at. intros H1 H2.
  apply M_Concat with (List.length pre + List.length m1)%nat.
  - cast_match H1.
  - cast_match H2.
Qed.

Lemma ma_alternate_l (r1 r2 : Regexp) (pre mid post : list ascii) :
  matches_at r1 pre mid post -> matches_at (Alternate r1 r2) pre mid post.
Proof. unfold matches_at. now constructor. Qed.

Lemma ma_alternate_r (r1 r2 : Regexp) (pre mid post : list ascii) :
  matches_at r2 pre mid post -> matches_at (Alternate r1 r2) pre mid post.
Proof. unfold matches_at. now constructor 9. Qed.

Lemma ma_quest_none (r : Regexp) (pre post : list ascii) :
  matches_at (Quest r) pre [] post.
Proof.
  unfold matches_at. cbn [List.length]. rewrite Nat.add_0_r. constructor.
Qed.

Lemma ma_quest_some (r : Regexp) (pre mid post : list ascii) :
  matches_at r pre mid post -> matches_at (Quest r) pre mid post.
Proof. unfold matches_at. now constructor. Qed.

Lemma ma_star_nil (r : Regexp) (pre post : list ascii) :
  matches_at (Star r) pre [] post.
Proof.
  unfold matches_at. cbn [List.length]. rewrite Nat.add_0_r. constructor.
Qed.

Lemma ma_star_cons (r : Regexp) (pre m1 m2 post : list ascii) :
  matches_at r pre m1 (m2 ++ post) -> matches_at (Star r) (pre ++ m1) m2 post ->
  matches_at (Star r) pre (m1 ++ m2) post.
Proof.
  unfold matches_at. intros H1 H2.
  apply M_StarCons with (List.length pre + List.length m1)%nat.
  - cast_match H1.
  - cast_match H2.
Qed.

Lemma ma_plus (r : Regexp) (pre m1 m2 post : list ascii) :
  matches_at r pre m1 (m2 ++ post) -> matches_at (Star r) (pre ++ m1) m2 post ->
  matches_at (Plus r) pre (m1 ++ m2) post.
Proof.
  unfold matches_at. intros H1 H2.
  apply M_Plus with (List.length pre + List.length m1)%nat.
  - cast_match H1.
  - cast_match H2.
Qed.

Lemma ma_plus_star (r : Regexp) (pre mid post : list ascii) :
  matches_at (Plus r) pre mid post -> matches_at (Star r) pre mid post.
Proof.
  unfold matches_at. intros H. inversion H; subst.
  eapply M_StarCons; eassumption.
Qed.

End MatchesAt.

(** ** Duration validators *)

Lemma chars_append (a b : string) :
  list_ascii_of_string (String.append a b)
  = (list_ascii_of_string a ++ list_ascii_of_string b)%list.
Proof.
  induction a as [|c a IH]; [reflexivity|].
  change (String.append (String c a) b) with (String c (String.append a b)).
  cbn [list_ascii_of_string]. now rewrite IH.
Qed.

Lemma is_digit_in_class (c : ascii) :
  DurationModel.is_digit c = true ->
  regexp.in_class [("0"%char, "9"%char)] c = true.
Proof.
  unfold DurationModel.is_digit, strconv.byte, regexp.in_class.
  intros H. apply andb_true_iff in H as [H1 H2].
  apply Z.leb_le in H1, H2.
  cbn [existsb]. rewrite orb_false_r.
  change (N_of_ascii "0") with 48%N. change (N_of_ascii "9") with 57%N.
  apply andb_true_iff. split; apply N.leb_le; lia.
Qed.

Lemma ma_cast (r : regexp.Regexp) (pre mid mid' post : list ascii) :
  mid = mid' -> regexp.matches_at r pre mid post ->
  regexp.matches_at r pre mid' post.
Proof. now intros ->. Qed.

Lemma ma_digits_star (ds : list ascii) :
  Forall (fun c => DurationModel.is_digit c = true) ds ->
  forall pre post, regexp.matches_at (regexp.Star regexp.digit) pre ds post.
Proof.
  induction 1 as [|c ds Hc _ IH]; intros pre post.
  - apply ma_star_nil.
  - change (c :: ds) with ([c] ++ ds)%list. apply ma_star_cons.
    + apply ma_class. now apply is_digit_in_class.
    + apply IH.
Qed.

Lemma ma_digits (ds : string) (pre post : list ascii) :
  digits ds ->
  regexp.matches_at (regexp.Plus regexp.digit) pre (list_ascii_of_string ds) post.
Proof.
  intros [Hne Hall]. destruct ds as [|c ds]; [contradiction|].
  cbn [list_ascii_of_string] in *.
  inversion Hall as [|? ? Hc Hrest]; subst.
  change (c :: list_ascii_of_string ds) with ([c] ++ list_ascii_of_string ds)%list.
  apply ma_plus.
  - apply ma_class. now apply is_digit_in_class.
  - now apply ma_digits_star.
Qed.

Section TokenSequences.

(** [token] is the pattern of one token and [units] the units it reads. *)
Variable token : regexp.Regexp.
Variable units : list string.
Hypothesis token_matches :
  forall t, duration_token units t ->
  forall pre post, regexp.matches_at token pre (list_ascii_of_string t) post.

Lemma ma_tokens (s : string) :
  duration_text units s ->
  forall pre post,
    regexp.matches_at (regexp.Plus token) pre (list_ascii_of_string s) post.
Proof.
  induction 1 as [t Ht|t s Ht _ IH]; intros pre post.
  - apply ma_cast with (list_ascii_of_string t ++ [])%list;
      [apply app_nil_r|].
    apply ma_plus; [now apply token_matches | apply ma_star_nil].
  - rewrite chars_append. apply ma_plus; [now apply token_matches|].
    apply ma_plus_star, IH.
Qed.

End TokenSequences.

(** One token of [ValidationTime]: [\d+[smhdw]?]. *)
Lemma ValidationTime_token (t : string) :
  duration_token ValidationTime_units t ->
  forall pre post,
    regexp.matches_at
      (regexp.Capture
         (regexp.Concat (regexp.Plus regexp.digit)
            (regexp.Quest (regexp.one_of "smhdw"))))
      pre (list_ascii_of_string t) post.
Proof.
  intros [ds Hds|ds u Hds Hu] pre post; apply ma_capture.
  - apply ma_cast with (list_ascii_of_string ds ++ [])%list;
      [apply app_nil_r|].
    apply ma_concat; [now apply ma_digits | apply ma_quest_none].
  - rewrite chars_append. apply ma_concat; [now apply ma_digits|].
    apply ma_quest_some.
    cbn in Hu. destruct Hu as [<-|[<-|[<-|[<-|[<-|[]]]]]];
      now apply ma_class.
Qed.

(** One token of the ARP timeout pattern: [\d+(ms|s|M|h|d)?]. *)
Lemma ArpTimeout_token (t : string) :
  duration_token ArpTimeout_units t ->
  forall pre post,
    regexp.matches_at
      (regexp.Capture
         (regexp.Concat (regexp.Plus regexp.digit)
            (regexp.Quest
               (regexp.Capture
                  (regexp.alt
                     [ regexp.lit "ms"; regexp.lit "s"; regexp.lit "M";
                       regexp.lit "h"; regexp.lit "d" ])))))
      pre (list_ascii_of_string t) post.
Proof.
  intros [ds Hds|ds u Hds Hu] pre post; apply ma_capture.
  - apply ma_cast with (list_ascii_of_string ds ++ [])%list;
      [apply app_nil_r|].
    apply ma_concat; [now apply ma_digits | apply ma_quest_none].
  - rewrite chars_append. apply ma_concat; [now apply ma_digits|].
    apply ma_quest_some, ma_capture. cbn [regexp.alt regexp.lit].
    cbn in Hu. destruct Hu as [<-|[<-|[<-|[<-|[<-|[]]]]]].
    + apply ma_alternate_l.
      change (list_ascii_of_string "ms") with (["m"%char] ++ ["s"%char])%list.
      apply ma_concat; apply ma_literal.
    + apply ma_alternate_r, ma_alternate_l, ma_literal.
    + apply ma_alternate_r, ma_alternate_r, ma_alternate_l, ma_literal.
    + apply ma_alternate_r, ma_alternate_r, ma_alternate_r, ma_alternate_l,
        ma_literal.
    + apply ma_alternate_r, ma_alternate_r, ma_alternate_r, ma_alternate_r,
        ma_literal.
Qed.

Lemma ValidationTime_matches (s : string) :
  duration_text ValidationTime_units s ->
  regexp.MatchString ValidationTime_regexp s = true.
Proof.
  intros Hs.
  apply MatchString_of_matches_at with [] (list_ascii_of_string s) [];
    [now rewrite app_nil_r|].
  unfold ValidationTime_regexp. cbn [regexp.cat].
  apply ma_cast with ([] ++ list_ascii_of_string s ++ [])%list;
    [cbn; apply app_nil_r|].
  apply ma_concat; [apply ma_begin|].
  apply ma_concat; [|apply ma_end].
  now apply (ma_tokens _ ValidationTime_units ValidationTime_token).
Qed.

Lemma ArpTimeout_matches (s : string) :
  duration_text ArpTimeout_units s ->
  regexp.MatchString ArpTimeout_regexp s = true.
Proof.
  intros Hs.
  apply MatchString_of_matches_at with [] (list_ascii_of_string s) [];
    [now rewrite app_nil_r|].
  unfold ArpTimeout_regexp. cbn [regexp.alt].
  apply ma_alternate_r, ma_alternate_r.
  apply ma_cast with (list_ascii_of_string s ++ [])%list;
    [apply app_nil_r|].
  apply ma_concat; [|apply ma_end].
  now apply (ma_tokens _ ArpTimeout_units ArpTimeout_token).
Qed.

Lemma StringMatch_accepts (r : regexp.Regexp) (message s : string) :
  regexp.MatchString r s = true -> accepts (validation.StringMatch r message) s.
Proof. intros H k. unfold validation.StringMatch. now rewrite H. Qed.

Lemma digits_10 : digits "10".
Proof. split; [discriminate|]. repeat constructor. Qed.

Lemma digits_1 : digits "1".
Proof. split; [discriminate|]. repeat constructor. Qed.

Lemma digits_30 : digits "30".
Proof. split; [discriminate|]. repeat constructor. Qed.

Lemma text_1h30m : duration_text ValidationTime_units "1h30m".
Proof.
  change "1h30m" with (String.append (String.append "1" "h") (String.append "30" "m")).
  apply text_more; [|apply text_last];
    (apply token_unit; [first [apply digits_1 | apply digits_30] | cbn; tauto]).
Qed.

(** C3, as stated, fails: [10ms] and [5M] are sequences of integer-and-unit
    tokens over the units ms, s, M, h, d, w, and [ValidationTime] reports an
    error for both; [1w] is one too, and the ARP timeout validator reports an
    error for it. *)
Lemma duration_validators_reject_spec_units :
  duration_text spec_units "10ms" /\
  snd (ValidationTime (AString "10ms") "interval")
    = ["invalid value for interval (value must be integer[/time],integer 0..4294967295)"] /\
  duration_text spec_units "5M" /\
  snd (ValidationTime (AString "5M") "interval")
    = ["invalid value for interval (value must be integer[/time],integer 0..4294967295)"] /\
  duration_text spec_units "1w" /\
  snd (PropArpTimeoutRw_validate (AString "1w") "arp_timeout")
    = ["invalid value for arp_timeout (expected arp_timout value to be 'auto' string or time value)"].
Proof.
  assert (Hd5 : digits "5") by (split; [discriminate | repeat constructor]).
  repeat split; try (vm_compute; reflexivity).
  - apply text_last. change "10ms" with (String.append "10" "ms").
    apply token_unit; [apply digits_10 | cbn; tauto].
  - apply text_last. change "5M" with (String.append "5" "M").
    apply token_unit; [apply Hd5 | cbn; tauto].
  - apply text_last. change "1w" with (String.append "1" "w").
    apply token_unit; [apply digits_1 | cbn; tauto].
Qed.

(** C3, amended: [ValidationTime] accepts every non-empty sequence of tokens
    made of an integer and an optional unit among s, m, h, d, w, and the
    validator of the ARP timeout accepts every such sequence with the unit
    among ms, s, M, h, d.  [1w2d] passes [ValidationTime]; [10ms] and [5M]
    pass the ARP timeout validator. *)
Theorem duration_validators_accept_their_units (s : string) :
  (duration_text ValidationTime_units s -> accepts ValidationTime s) /\
  (duration_text ArpTimeout_units s -> accepts PropArpTimeoutRw_validate s) /\
  accepts ValidationTime "1w2d" /\
  accepts PropArpTimeoutRw_validate "10ms" /\
  accepts PropArpTimeoutRw_validate "5M" /\
  schema.ValidateFunc PropArpTimeoutRw = Some PropArpTimeoutRw_validate.
Proof.
  split; [|split; [|split; [|split; [|split]]]].
  - intros Hs. now apply StringMatch_accepts, ValidationTime_matches.
  - intros Hs. now apply StringMatch_accepts, ArpTimeout_matches.
  - intros k. vm_compute. reflexivity.
  - intros k. vm_compute. reflexivity.
  - intros k. vm_compute. reflexivity.
  - reflexivity.
Qed.

Lemma duration_validators_accept_their_units_witness :
  duration_text ValidationTime_units "1h30m" /\ accepts ValidationTime "1h30m".
Proof.
  split; [apply text_1h30m|].
  apply (proj1 (duration_validators_accept_their_units "1h30m")), text_1h30m.
Defined.

(** ** The model on sample inputs *)

Example ParseInt_1500 : strconv.ParseInt "1500" 0 64 = (1500, None).
Proof. vm_compute. reflexivity. Qed.

Example ParseInt_octal : strconv.ParseInt "017" 0 64 = (15, None).
Proof. vm_compute. reflexivity. Qed.

Example ParseInt_underscore : strconv.ParseInt "0x_1F" 0 64 = (31, None).
Proof. vm_compute. reflexivity. Qed.

Example ParseInt_bare_prefix :
  strconv.ParseInt "0x" 0 64 = (0, Some (strconv.syntaxError "ParseInt" "0x")).
Proof. vm_compute. reflexivity. Qed.

Example ParseInt_min_int64 :
  strconv.ParseInt "-9223372036854775808" 0 64 = (- 2 ^ 63, None).
Proof. vm_compute. reflexivity. Qed.

Example ParseInt_overflow :
  strconv.ParseInt "9223372036854775808" 0 64
  = (2 ^ 63 - 1, Some (strconv.rangeError "ParseInt" "9223372036854775808")).
Proof. vm_compute. reflexivity. Qed.

Example ValidationTime_whole_text :
  regexp.MatchString ValidationTime_regexp "x1h" = false /\
  regexp.MatchString ValidationTime_regexp "1h30m" = true /\
  regexp.MatchString ValidationTime_regexp EmptyString = false.
Proof. repeat split; vm_compute; reflexivity. Qed.

Example ArpTimeout_defaults :
  regexp.MatchString ArpTimeout_regexp EmptyString = true /\
  regexp.MatchString ArpTimeout_regexp "auto" = true /\
  regexp.MatchString ArpTimeout_regexp "30s" = true /\
  regexp.MatchString ArpTimeout_regexp "soon" = false.
Proof. repeat split; vm_compute; reflexivity. Qed.

Example HexEqual_panics :
  HexEqual "mac" "0x10" "0xZ" no_data
  = Panic "[HexEqual] 'new' number parse error: "
      (strconv.syntaxError "ParseInt" "0xZ").
Proof. vm_compute. reflexivity. Qed.

Example buildReadFilter_renders :
  buildReadFilter_loop [("name", AString "ether1"); ("mtu", AInt 1500);
                        ("disabled", ABool false)]
  = ["name=ether1"; "mtu=1500"; "disabled=false"].
Proof. vm_compute. reflexivity. Qed.

(** * Further properties of the helpers *)

(** ** What [strconv.ParseInt] hands to its callers *)

Lemma digits_loop_shape (base0 : bool) (base cutoff maxVal : Z) (s : string) :
  forall n u, 0 <= n <= maxVal ->
  match strconv.digits_loop base0 base cutoff maxVal s n u with
  | strconv.LoopReturn v e =>
      (e = strconv.ErrSyntax /\ v = 0) \/ (e = strconv.ErrRange /\ v = maxVal)
  | strconv.LoopDone v _ => 0 <= v <= maxVal
  end.
Proof.
  induction s as [|ch rest IH]; intros n u Hn; cbn [strconv.digits_loop].
  - assumption.
  - destruct ((strconv.byte ch =? 95) && base0); [now apply IH|].
    destruct (if (48 <=? strconv.byte ch) && (strconv.byte ch <=? 57)
              then Some (strconv.byte ch - 48)
              else if (97 <=? strconv.lower (strconv.byte ch))
                      && (strconv.lower (strconv.byte ch) <=? 122)
                   then Some (strconv.lower (strconv.byte ch) - 97 + 10)
                   else None) as [d|]; [|now left].
    destruct (d >=? base); [now left|].
    destruct (n >=? cutoff); [now right|].
    destruct (((n * base) mod 2 ^ 64 + d) mod 2 ^ 64 <? (n * base) mod 2 ^ 64)
      eqn:Hwrap; [now right|].
    destruct (((n * base) mod 2 ^ 64 + d) mod 2 ^ 64 >? maxVal) eqn:Hmax;
      [now right|].
    cbn [orb]. apply IH. split.
    + apply Z.mod_pos_bound. reflexivity.
    + rewrite Z.gtb_ltb in Hmax. now apply Z.ltb_ge in Hmax.
Qed.

Lemma ParseUint_0_64_shape (s : string) (un : Z) (err : option strconv.NumError) :
  strconv.ParseUint s 0 64 = (un, err) ->
  match err with
  | None => 0 <= un <= 2 ^ 64 - 1
  | Some e =>
      (strconv.Err e = strconv.ErrSyntax /\ un = 0) \/
      (strconv.Err e = strconv.ErrRange /\ un = 2 ^ 64 - 1)
  end.
Proof.
  unfold strconv.ParseUint.
  destruct (String.eqb s EmptyString); [intros [= <- <-]; now left|].
  destruct (strconv.pick_base s 0) as [[base s']|] eqn:Hbase.
  2:{ unfold strconv.pick_base in Hbase. cbn in Hbase.
      destruct s as [|c0 s0]; [discriminate|].
      destruct (strconv.byte c0 =? 48); [|discriminate].
      destruct (strconv.byte1 (String c0 s0)); [|discriminate].
      repeat match type of Hbase with
             | (if ?b then _ else _) = None => destruct b; try discriminate
             end. }
  change ((64 <? 0) || (64 >? 64)) with false. cbv iota.
  change (if 64 =? 0 then strconv.IntSize else 64) with 64.
  pose proof (digits_loop_shape (0 =? 0) base (strconv.maxUint64 / base + 1)
                (2 ^ 64 - 1) s' 0 false) as Hloop.
  destruct (strconv.digits_loop (0 =? 0) base (strconv.maxUint64 / base + 1)
              (2 ^ 64 - 1) s' 0 false) as [v e|v u].
  - intros [= <- <-]. cbn [strconv.Err]. apply Hloop. lia.
  - destruct (u && negb (strconv.underscoreOK s)).
    + intros [= <- <-]. now left.
    + intros [= <- <-]. apply Hloop. lia.
Qed.

Ltac shape_done :=
  cbn; repeat split;
  first [ left; split; reflexivity
        | right; split; [reflexivity | first [left; reflexivity | right; reflexivity]] ].

(** The pair returned by [ParseInt(s, 0, 64)]: a value of the [int64] range
    without error, or an error that names [s] together with 0 (syntax) or the
    nearest bound of the range (out of range). *)
Lemma ParseInt_0_64_shape (s : string) (n : Z) (err : option strconv.NumError) :
  strconv.ParseInt s 0 64 = (n, err) ->
  match err with
  | None => - 2 ^ 63 <= n <= 2 ^ 63 - 1
  | Some e =>
      strconv.Func e = "ParseInt" /\ strconv.Num e = s /\
      ((strconv.Err e = strconv.ErrSyntax /\ n = 0) \/
       (strconv.Err e = strconv.ErrRange /\ (n = 2 ^ 63 - 1 \/ n = - 2 ^ 63)))
  end.
Proof.
  unfold strconv.ParseInt.
  destruct (String.eqb s EmptyString); [intros [= <- <-]; shape_done|].
  destruct (match s with
            | EmptyString => (false, s)
            | String c rest =>
                if strconv.byte c =? 43 then (false, rest)
                else if strconv.byte c =? 45 then (true, rest) else (false, s)
            end) as [neg s'].
  destruct (strconv.ParseUint s' 0 64) as [un uerr] eqn:Hu.
  apply ParseUint_0_64_shape in Hu.
  change (if 64 =? 0 then strconv.IntSize else 64) with 64.
  change (64 - 1) with 63.
  destruct uerr as [e|].
  - destruct Hu as [[He Hun] | [He Hun]]; rewrite He; cbn [strconv.is_ErrRange].
    + intros [= <- <-]. cbn. auto.
    + subst un. destruct neg; cbn [negb andb];
        [change (2 ^ 64 - 1 >? 2 ^ 63) with true
        |change (2 ^ 64 - 1 >=? 2 ^ 63) with true];
        cbv iota; intros [= <- <-]; shape_done.
  - destruct neg; cbn [negb andb].
    + destruct (un >? 2 ^ 63) eqn:Hc; intros [= <- <-]; [shape_done|].
      rewrite Z.gtb_ltb in Hc. apply Z.ltb_ge in Hc. lia.
    + destruct (un >=? 2 ^ 63) eqn:Hc; intros [= <- <-]; [shape_done|].
      rewrite Z.geb_leb in Hc. apply Z.leb_gt in Hc. lia.
Qed.

(** ** The suppressors as equivalence tests *)

Section TimeEquallOrder.

Context {Duration DurationError : Type}.
Variable ParseDuration : string -> Duration + DurationError.
Variable Seconds : Duration -> Q.

(** When [TimeEquall] answers [true] the texts are equal, or both are
    non-empty and parse to durations of equal seconds. *)
Lemma TimeEquall_true_inv (k a b : string) (d : schema.ResourceData) :
  TimeEquall ParseDuration Seconds k a b d = Return true ->
  a = b \/
  (a <> b /\ a <> EmptyString /\ b <> EmptyString /\
   exists o n, ParseDuration a = inl o /\ ParseDuration b = inl n /\
               Qeq (Seconds o) (Seconds n)).
Proof.
  intros H.
  pose proof (TimeEquall_takes_path ParseDuration Seconds k a b d) as Hp.
  rewrite H in Hp.
  inversion Hp as [E|Hne He| | |o n Hne Ha Hb Hpa Hpb Hq]; subst; [now left|].
  right. repeat split; try assumption.
  exists o, n. repeat split; try assumption. now apply Qeq_bool_iff.
Qed.

Lemma TimeEquall_trans (k a b c : string) (d : schema.ResourceData) :
  TimeEquall ParseDuration Seconds k a b d = Return true ->
  TimeEquall ParseDuration Seconds k b c d = Return true ->
  TimeEquall ParseDuration Seconds k a c d = Return true.
Proof.
  intros Hab Hbc.
  destruct (TimeEquall_true_inv k a b d Hab)
    as [->|(Hne1 & Ha & Hb & o & n & Hpa & Hpb & Hq1)]; [assumption|].
  destruct (TimeEquall_true_inv k b c d Hbc)
    as [<-|(Hne2 & _ & Hc & n' & p & Hpb' & Hpc & Hq2)]; [assumption|].
  destruct (string_dec a c) as [->|Hac]; [apply TimeEquall_same|].
  rewrite (TimeEquall_parsed _ _ k a c d o p) by assumption.
  f_equal. apply Qeq_bool_iff.
  rewrite Hpb in Hpb'. injection Hpb' as <-.
  now rewrite Hq1.
Qed.

Lemma TimeEquall_swap (k a b : string) (d : schema.ResourceData) (x : bool) :
  TimeEquall ParseDuration Seconds k a b d = Return x ->
  TimeEquall ParseDuration Seconds k b a d = Return x.
Proof.
  intros H.
  pose proof (TimeEquall_takes_path ParseDuration Seconds k a b d) as Hp.
  rewrite H in Hp.
  inversion Hp as [E|Hne He| | |o n Hne Ha Hb Hpa Hpb Hq]; subst.
  - apply TimeEquall_same.
  - apply TimeEquall_empty; [congruence | tauto].
  - rewrite (TimeEquall_parsed _ _ k b a d n o) by auto.
    now rewrite Qeq_bool_sym.
Qed.

End TimeEquallOrder.

Lemma HexEqual_true_inv (k a b : string) (d : schema.ResourceData) :
  HexEqual k a b d = Return true ->
  a = b \/
  (a <> b /\ a <> EmptyString /\ b <> EmptyString /\
   exists n, strconv.ParseInt a 0 64 = (n, None) /\
             strconv.ParseInt b 0 64 = (n, None)).
Proof.
  intros H. pose proof (HexEqual_takes_path k a b d) as Hp. rewrite H in Hp.
  inversion Hp as [E|Hne He| | |iOld iNew Hne Ha Hb Hpa Hpb Hq]; subst;
    [now left|].
  right. repeat split; try assumption.
  apply Z.eqb_eq in Hq. subst iNew. now exists iOld.
Qed.

Lemma HexEqual_trans (k a b c : string) (d : schema.ResourceData) :
  HexEqual k a b d = Return true -> HexEqual k b c d = Return true ->
  HexEqual k a c d = Return true.
Proof.
  intros Hab Hbc.
  destruct (HexEqual_true_inv k a b d Hab)
    as [->|(Hne1 & Ha & Hb & n & Hpa & Hpb)]; [assumption|].
  destruct (HexEqual_true_inv k b c d Hbc)
    as [<-|(Hne2 & _ & Hc & n' & Hpb' & Hpc)]; [assumption|].
  destruct (string_dec a c) as [->|Hac]; [apply HexEqual_same|].
  rewrite Hpb in Hpb'. injection Hpb' as <-.
  rewrite (HexEqual_parsed k a c d n n) by assumption.
  now rewrite Z.eqb_refl.
Qed.

Lemma HexEqual_swap (k a b : string) (d : schema.ResourceData) (x : bool) :
  HexEqual k a b d = Return x -> HexEqual k b a d = Return x.
Proof.
  intros H. pose proof (HexEqual_takes_path k a b d) as Hp. rewrite H in Hp.
  inversion Hp as [E|Hne He| | |iOld iNew Hne Ha Hb Hpa Hpb Hq]; subst.
  - apply HexEqual_same.
  - apply HexEqual_empty; [congruence | tauto].
  - rewrite (HexEqual_parsed k b a d iNew iOld) by auto.
    now rewrite Z.eqb_sym.
Qed.

(** X1: suppression is transitive.  If [TimeEquall] (with any
    [ParseDuration]) suppresses the difference between [a] and [b] and the
    one between [b] and [c], it suppresses the one between [a] and [c]
    without panicking; the same holds for [HexEqual]. *)
Theorem suppressors_transitive
    {Duration DurationError : Type}
    (ParseDuration : string -> Duration + DurationError)
    (Seconds : Duration -> Q)
    (k a b c : string) (d : schema.ResourceData) :
  (TimeEquall ParseDuration Seconds k a b d = Return true ->
   TimeEquall ParseDuration Seconds k b c d = Return true ->
   TimeEquall ParseDuration Seconds k a c d = Return true) /\
  (HexEqual k a b d = Return true -> HexEqual k b c d = Return true ->
   HexEqual k a c d = Return true).
Proof. split; [apply TimeEquall_trans | apply HexEqual_trans]. Qed.

Lemma suppressors_transitive_witness :
  DurationModel.TimeEquall "interval" "1h" "3600" no_data = Return true /\
  HexEqual "mac" "0x10" "020" no_data = Return true.
Proof.
  split.
  - apply (proj1 (suppressors_transitive
                    DurationModel.ParseDuration DurationModel.Seconds
                    "interval" "1h" "60M" "3600" no_data)); reflexivity.
  - apply (proj2 (suppressors_transitive
                    DurationModel.ParseDuration DurationModel.Seconds
                    "mac" "0x10" "16" "020" no_data)); reflexivity.
Defined.

(** X2: swapping [old] and [new] never turns an answer into a panic.  If
    [TimeEquall] (with any [ParseDuration]) or [HexEqual] returns [x] on
    [(a, b)], it returns the same [x] on [(b, a)]. *)
Theorem suppressors_swap_returns
    {Duration DurationError : Type}
    (ParseDuration : string -> Duration + DurationError)
    (Seconds : Duration -> Q)
    (k a b : string) (d : schema.ResourceData) (x : bool) :
  (TimeEquall ParseDuration Seconds k a b d = Return x ->
   TimeEquall ParseDuration Seconds k b a d = Return x) /\
  (HexEqual k a b d = Return x -> HexEqual k b a d = Return x).
Proof. split; [apply TimeEquall_swap | apply HexEqual_swap]. Qed.

Lemma suppressors_swap_returns_witness :
  DurationModel.TimeEquall "interval" "2h" "1h" no_data = Return false /\
  HexEqual "mac" "16" "0x10" no_data = Return true.
Proof.
  split.
  - apply (proj1 (suppressors_swap_returns
                    DurationModel.ParseDuration DurationModel.Seconds
                    "interval" "1h" "2h" no_data false)); reflexivity.
  - apply (proj2 (suppressors_swap_returns
                    DurationModel.ParseDuration DurationModel.Seconds
                    "mac" "0x10" "16" no_data true)); reflexivity.
Defined.

(** X3: a panic of [HexEqual] tells which text is at fault.  The message is
    the one for [old] exactly when [old] fails to parse, and the one for [new]
    when [old] parses and [new] does not; the error it carries is the
    [ParseInt] error for that text: it names the text, and its kind is a
    syntax or a range error. *)
Theorem HexEqual_panic_names_offender
    (k old new : string) (d : schema.ResourceData)
    (msg : string) (err : strconv.NumError) :
  HexEqual k old new d = Panic msg err ->
  strconv.Func err = "ParseInt" /\
  (strconv.Err err = strconv.ErrSyntax \/ strconv.Err err = strconv.ErrRange) /\
  ((msg = "[HexEqual] 'old' number parse error: " /\ strconv.Num err = old /\
    snd (strconv.ParseInt old 0 64) = Some err) \/
   (msg = "[HexEqual] 'new' number parse error: " /\ strconv.Num err = new /\
    snd (strconv.ParseInt new 0 64) = Some err /\
    snd (strconv.ParseInt old 0 64) = None)).
Proof.
  intros H. pose proof (HexEqual_takes_path k old new d) as Hp. rewrite H in Hp.
  inversion Hp as [| |v e Hne Ho Hn Hpo|iOld v e Hne Ho Hn Hpo Hpn|]; subst.
  - pose proof (ParseInt_0_64_shape _ _ _ Hpo) as (Hf & Hnum & Hk).
    split; [assumption|]. split; [tauto|].
    left. now rewrite Hpo.
  - pose proof (ParseInt_0_64_shape _ _ _ Hpn) as (Hf & Hnum & Hk).
    split; [assumption|]. split; [tauto|].
    right. now rewrite Hpo, Hpn.
Qed.

Lemma HexEqual_panic_names_offender_witness :
  strconv.Func (strconv.syntaxError "ParseInt" "0xZ") = "ParseInt" /\
  (strconv.Err (strconv.syntaxError "ParseInt" "0xZ") = strconv.ErrSyntax \/
   strconv.Err (strconv.syntaxError "ParseInt" "0xZ") = strconv.ErrRange) /\
  (("[HexEqual] 'new' number parse error: " = "[HexEqual] 'old' number parse error: " /\
    strconv.Num (strconv.syntaxError "ParseInt" "0xZ") = "0x10" /\
    snd (strconv.ParseInt "0x10" 0 64) = Some (strconv.syntaxError "ParseInt" "0xZ")) \/
   ("[HexEqual] 'new' number parse error: " = "[HexEqual] 'new' number parse error: " /\
    strconv.Num (strconv.syntaxError "ParseInt" "0xZ") = "0xZ" /\
    snd (strconv.ParseInt "0xZ" 0 64) = Some (strconv.syntaxError "ParseInt" "0xZ") /\
    snd (strconv.ParseInt "0x10" 0 64) = None)).
Proof.
  apply (HexEqual_panic_names_offender "mac" "0x10" "0xZ" no_data). reflexivity.
Defined.

(** ** Decimal renderings parse back *)

Lemma uint_value_pos (d : Decimal.uint) :
  forall acc : positive, uint_value d (Z.pos acc) = Z.pos (Pos.of_uint_acc d acc).
Proof.
  induction d; intros acc; cbn [uint_value Pos.of_uint_acc];
    [reflexivity | rewrite <- IHd; f_equal; lia ..].
Qed.

Lemma uint_value_0 (d : Decimal.uint) :
  uint_value d 0 = Z.of_N (Pos.of_uint d).
Proof.
  induction d; cbn [uint_value Pos.of_uint]; try reflexivity;
    [assumption | cbn [Z.mul Z.add]; apply uint_value_pos ..].
Qed.

Lemma uint_value_grows (d : Decimal.uint) :
  forall acc, 0 <= acc -> acc <= uint_value d acc.
Proof.
  induction d; intros acc Hacc; cbn [uint_value]; [lia|..];
    (etransitivity; [|apply IHd]; lia).
Qed.

(** One round of the digit loop on a decimal digit that does not overflow. *)
Lemma digits_loop_decimal_step (base0 : bool) (ch : ascii) (k : Z)
    (rest : string) (n : Z) (u : bool) :
  strconv.byte ch = 48 + k -> 0 <= k <= 9 -> 0 <= n ->
  10 * n + k <= 2 ^ 64 - 1 ->
  strconv.digits_loop base0 10 (strconv.maxUint64 / 10 + 1) (2 ^ 64 - 1)
    (String ch rest) n u
  = strconv.digits_loop base0 10 (strconv.maxUint64 / 10 + 1) (2 ^ 64 - 1)
      rest (10 * n + k) u.
Proof.
  intros Hch Hk Hn Hfit. cbn [strconv.digits_loop]. rewrite Hch.
  change (strconv.maxUint64 / 10 + 1) with 1844674407370955162.
  replace (48 + k =? 95) with false by (symmetry; apply Z.eqb_neq; lia).
  cbn [andb].
  replace (48 <=? 48 + k) with true by (symmetry; apply Z.leb_le; lia).
  replace (48 + k <=? 57) with true by (symmetry; apply Z.leb_le; lia).
  cbn [andb]. replace (48 + k - 48) with k by lia.
  replace (k >=? 10) with false
    by (symmetry; rewrite Z.geb_leb; apply Z.leb_gt; lia).
  replace (n >=? 1844674407370955162) with false
    by (symmetry; rewrite Z.geb_leb; apply Z.leb_gt; lia).
  assert (H64 : 2 ^ 64 = 18446744073709551616) by reflexivity.
  rewrite (Z.mod_small (n * 10)) by lia.
  rewrite (Z.mod_small (n * 10 + k)) by lia.
  replace (n * 10 + k <? n * 10) with false
    by (symmetry; apply Z.ltb_ge; lia).
  replace (n * 10 + k >? 2 ^ 64 - 1) with false
    by (symmetry; rewrite Z.gtb_ltb; apply Z.ltb_ge; lia).
  cbn [orb]. f_equal. lia.
Qed.

Lemma digits_loop_decimal (base0 : bool) (d : Decimal.uint) :
  forall n u, 0 <= n -> uint_value d n <= 2 ^ 64 - 1 ->
  strconv.digits_loop base0 10 (strconv.maxUint64 / 10 + 1) (2 ^ 64 - 1)
    (NilEmpty.string_of_uint d) n u
  = strconv.LoopDone (uint_value d n) u.
Proof.
  induction d; intros n u Hn Hfit;
    cbn [NilEmpty.string_of_uint uint_value] in *; [reflexivity|..];
    lazymatch type of Hfit with
    | uint_value d (10 * n + _) <= _ => idtac
    | _ => replace (10 * n) with (10 * n + 0) in * by lia
    end;
    match type of Hfit with
    | uint_value d (10 * n + ?k) <= _ =>
        pose proof (uint_value_grows d (10 * n + k) ltac:(lia)) as Hg;
        rewrite (digits_loop_decimal_step base0 _ k)
          by (first [reflexivity | lia]);
        apply IHd; [lia | assumption]
    end.
Qed.

Lemma to_uint_leading_nonzero (p : positive) : leading_nonzero (Pos.to_uint p).
Proof.
  pose proof (DecimalPos.Unsigned.to_of (Pos.to_uint p)) as Hnorm.
  rewrite DecimalPos.Unsigned.of_to in Hnorm. cbn [N.to_uint] in Hnorm.
  pose proof (DecimalPos.Unsigned.to_uint_nonzero p) as Hnz.
  destruct (Pos.to_uint p) as [|u| | | | | | | | |]; cbn; try exact I.
  - discriminate Hnorm.
  - rewrite DecimalFacts.unorm_D0 in Hnorm. unfold Decimal.unorm in Hnorm.
    destruct (Decimal.nzhead u) eqn:Hhd; try discriminate Hnorm.
    + apply Hnz. injection Hnorm as ->. reflexivity.
    + injection Hnorm as <-. now apply DecimalFacts.nzhead_nonzero in Hhd.
Qed.

Lemma decimal_not_empty (d : Decimal.uint) :
  leading_nonzero d ->
  String.eqb (NilEmpty.string_of_uint d) EmptyString = false.
Proof. destruct d; cbn; [contradiction | contradiction | reflexivity ..]. Qed.

Lemma decimal_pick_base (d : Decimal.uint) :
  leading_nonzero d ->
  strconv.pick_base (NilEmpty.string_of_uint d) 0
  = Some (10, NilEmpty.string_of_uint d).
Proof. destruct d; cbn; [contradiction | contradiction | reflexivity ..]. Qed.

Lemma ParseUint_decimal (d : Decimal.uint) :
  leading_nonzero d -> uint_value d 0 <= 2 ^ 64 - 1 ->
  strconv.ParseUint (NilEmpty.string_of_uint d) 0 64 = (uint_value d 0, None).
Proof.
  intros Hd Hfit. unfold strconv.ParseUint.
  rewrite decimal_not_empty, decimal_pick_base by assumption.
  change ((64 <? 0) || (64 >? 64)) with false. cbv iota.
  change (if 64 =? 0 then strconv.IntSize else 64) with 64.
  rewrite digits_loop_decimal by (assumption || lia).
  reflexivity.
Qed.

Lemma ParseInt_no_sign (c : ascii) (rest : string) (un : Z) :
  strconv.byte c <> 43 -> strconv.byte c <> 45 ->
  strconv.ParseUint (String c rest) 0 64 = (un, None) -> un <= 2 ^ 63 - 1 ->
  strconv.ParseInt (String c rest) 0 64 = (un, None).
Proof.
  intros Hplus Hminus Hu Hfit. unfold strconv.ParseInt. cbn [String.eqb].
  apply Z.eqb_neq in Hplus, Hminus. rewrite Hplus, Hminus, Hu.
  change (if 64 =? 0 then strconv.IntSize else 64) with 64.
  change (64 - 1) with 63. cbn [negb andb].
  replace (un >=? 2 ^ 63) with false
    by (symmetry; rewrite Z.geb_leb; apply Z.leb_gt; lia).
  reflexivity.
Qed.

Lemma ParseInt_minus (rest : string) (un : Z) :
  strconv.ParseUint rest 0 64 = (un, None) -> un <= 2 ^ 63 ->
  strconv.ParseInt (String "-" rest) 0 64 = (- un, None).
Proof.
  intros Hu Hfit. unfold strconv.ParseInt. cbn [String.eqb].
  change (strconv.byte "-" =? 43) with false.
  change (strconv.byte "-" =? 45) with true. cbv iota. rewrite Hu.
  change (if 64 =? 0 then strconv.IntSize else 64) with 64.
  change (64 - 1) with 63. cbn [negb andb].
  replace (un >? 2 ^ 63) with false
    by (symmetry; rewrite Z.gtb_ltb; apply Z.ltb_ge; lia).
  reflexivity.
Qed.

Lemma decimal_first_byte (d : Decimal.uint) :
  leading_nonzero d ->
  exists c rest, NilEmpty.string_of_uint d = String c rest /\
                 strconv.byte c <> 43 /\ strconv.byte c <> 45.
Proof.
  destruct d; cbn; try contradiction; intros _;
    eexists _, _; (split; [reflexivity | split; discriminate]).
Qed.

Lemma uint_value_to_uint (p : positive) : uint_value (Pos.to_uint p) 0 = Z.pos p.
Proof. now rewrite uint_value_0, DecimalPos.Unsigned.of_to. Qed.

Lemma string_of_to_uint (p : positive) :
  NilZero.string_of_uint (Pos.to_uint p) = NilEmpty.string_of_uint (Pos.to_uint p).
Proof.
  pose proof (to_uint_leading_nonzero p) as H.
  destruct (Pos.to_uint p); [contradiction | reflexivity ..].
Qed.

(** The text [%v] prints for an [int64] parses back to it, in base 0. *)
Lemma ParseInt_fmt_v (n : Z) :
  - 2 ^ 63 <= n <= 2 ^ 63 - 1 ->
  strconv.ParseInt (fmt_v (AInt n)) 0 64 = (n, None).
Proof.
  intros Hn. unfold fmt_v. destruct n as [|p|p]; cbn [Z.to_int NilZero.string_of_int].
  - reflexivity.
  - rewrite string_of_to_uint.
    destruct (decimal_first_byte _ (to_uint_leading_nonzero p))
      as (c & rest & Hs & Hplus & Hminus).
    pose proof (ParseUint_decimal _ (to_uint_leading_nonzero p)) as Hu.
    rewrite uint_value_to_uint in Hu. rewrite Hs in *.
    apply ParseInt_no_sign; [assumption | assumption | apply Hu; lia | lia].
  - rewrite string_of_to_uint.
    pose proof (ParseUint_decimal _ (to_uint_leading_nonzero p)) as Hu.
    rewrite uint_value_to_uint in Hu.
    change (Z.neg p) with (- Z.pos p).
    apply ParseInt_minus; [apply Hu; lia | lia].
Qed.

(** One round of the digit loop that would leave the [uint64] range. *)
Lemma digits_loop_decimal_overflow (base0 : bool) (d : Decimal.uint) :
  forall n u, 0 <= n <= 2 ^ 64 - 1 -> 2 ^ 64 - 1 < uint_value d n ->
  strconv.digits_loop base0 10 (strconv.maxUint64 / 10 + 1) (2 ^ 64 - 1)
    (NilEmpty.string_of_uint d) n u
  = strconv.LoopReturn (2 ^ 64 - 1) strconv.ErrRange.
Proof.
  assert (H64 : 2 ^ 64 = 18446744073709551616) by reflexivity.
  induction d; intros n u Hn Hbig;
    cbn [NilEmpty.string_of_uint uint_value] in *; [lia|..];
    lazymatch type of Hbig with
    | _ < uint_value d (10 * n + _) => idtac
    | _ => replace (10 * n) with (10 * n + 0) in * by lia
    end;
    match type of Hbig with
    | _ < uint_value d (10 * n + ?k) =>
        destruct (Z_le_gt_dec (10 * n + k) (2 ^ 64 - 1)) as [Hfit|Hover];
        [ rewrite (digits_loop_decimal_step base0 _ k)
            by (first [reflexivity | lia]);
          apply IHd; [lia | assumption]
        | cbn [strconv.digits_loop];
          match goal with
          | |- context [strconv.byte ?ch] =>
              change (strconv.byte ch) with (48 + k)
          end;
          change (strconv.maxUint64 / 10 + 1) with 1844674407370955162;
          change (48 + k =? 95) with false; cbn [andb];
          change ((48 <=? 48 + k) && (48 + k <=? 57)) with true; cbv iota;
          change (48 + k - 48 >=? 10) with false; cbv iota;
          destruct (n >=? 1844674407370955162) eqn:Hcut; [reflexivity|];
          rewrite Z.geb_leb in Hcut; apply Z.leb_gt in Hcut;
          rewrite (Z.mod_small (n * 10)) by lia;
          replace ((n * 10 + (48 + k - 48)) mod 2 ^ 64)
            with (n * 10 + k - 2 ^ 64)
            by (apply Z.mod_unique with 1; lia);
          replace (n * 10 + k - 2 ^ 64 <? n * 10) with true
            by (symmetry; apply Z.ltb_lt; lia);
          reflexivity ]
    end.
Qed.

Lemma ParseUint_decimal_overflow (d : Decimal.uint) :
  leading_nonzero d -> 2 ^ 64 - 1 < uint_value d 0 ->
  strconv.ParseUint (NilEmpty.string_of_uint d) 0 64
  = (2 ^ 64 - 1,
     Some (strconv.rangeError "ParseUint" (NilEmpty.string_of_uint d))).
Proof.
  intros Hd Hbig. unfold strconv.ParseUint.
  rewrite decimal_not_empty, decimal_pick_base by assumption.
  change ((64 <? 0) || (64 >? 64)) with false. cbv iota.
  change (if 64 =? 0 then strconv.IntSize else 64) with 64.
  rewrite digits_loop_decimal_overflow by (assumption || lia).
  reflexivity.
Qed.

(** What [ParseInt] makes of the digits once [ParseUint] has read them. *)
Lemma ParseInt_no_sign_range (c : ascii) (rest : string) (un : Z)
    (e : option strconv.NumError) :
  strconv.byte c <> 43 -> strconv.byte c <> 45 ->
  strconv.ParseUint (String c rest) 0 64 = (un, e) ->
  match e with Some e' => strconv.Err e' = strconv.ErrRange | None => True end ->
  2 ^ 63 <= un ->
  strconv.ParseInt (String c rest) 0 64
  = (2 ^ 63 - 1, Some (strconv.rangeError "ParseInt" (String c rest))).
Proof.
  intros Hplus Hminus Hu He Hbig. unfold strconv.ParseInt. cbn [String.eqb].
  apply Z.eqb_neq in Hplus, Hminus. rewrite Hplus, Hminus, Hu.
  assert (Hnf : match e with
                | Some e' => if strconv.is_ErrRange (strconv.Err e') then None else Some e'
                | None => None
                end = None).
  { destruct e as [e'|]; [rewrite He|]; reflexivity. }
  rewrite Hnf.
  change (if 64 =? 0 then strconv.IntSize else 64) with 64.
  change (64 - 1) with 63. cbn [negb andb].
  replace (un >=? 2 ^ 63) with true
    by (symmetry; rewrite Z.geb_leb; apply Z.leb_le; lia).
  reflexivity.
Qed.

Lemma ParseInt_minus_range (rest : string) (un : Z) (e : option strconv.NumError) :
  strconv.ParseUint rest 0 64 = (un, e) ->
  match e with Some e' => strconv.Err e' = strconv.ErrRange | None => True end ->
  2 ^ 63 < un ->
  strconv.ParseInt (String "-" rest) 0 64
  = (- 2 ^ 63, Some (strconv.rangeError "ParseInt" (String "-" rest))).
Proof.
  intros Hu He Hbig. unfold strconv.ParseInt. cbn [String.eqb].
  change (strconv.byte "-" =? 43) with false.
  change (strconv.byte "-" =? 45) with true. cbv iota. rewrite Hu.
  assert (Hnf : match e with
                | Some e' => if strconv.is_ErrRange (strconv.Err e') then None else Some e'
                | None => None
                end = None).
  { destruct e as [e'|]; [rewrite He|]; reflexivity. }
  rewrite Hnf.
  change (if 64 =? 0 then strconv.IntSize else 64) with 64.
  change (64 - 1) with 63. cbn [negb andb].
  replace (un >? 2 ^ 63) with true
    by (symmetry; rewrite Z.gtb_ltb; apply Z.ltb_lt; lia).
  reflexivity.
Qed.

(** The decimal text of an integer outside the [int64] range is a range
    error. *)
Lemma ParseInt_fmt_v_range (n : Z) :
  ~ - 2 ^ 63 <= n <= 2 ^ 63 - 1 ->
  strconv.ParseInt (fmt_v (AInt n)) 0 64
  = (if n <? 0 then - 2 ^ 63 else 2 ^ 63 - 1,
     Some (strconv.rangeError "ParseInt" (fmt_v (AInt n)))).
Proof.
  intros Hn. unfold fmt_v.
  destruct n as [|p|p]; cbn [Z.to_int NilZero.string_of_int Z.ltb Z.compare].
  - exfalso. apply Hn. split; discriminate.
  - rewrite string_of_to_uint.
    pose proof (to_uint_leading_nonzero p) as Hd.
    destruct (decimal_first_byte _ Hd) as (c & rest & Hs & Hplus & Hminus).
    destruct (Z_le_gt_dec (Z.pos p) (2 ^ 64 - 1)) as [Hfit|Hover].
    + pose proof (ParseUint_decimal _ Hd) as Hu.
      rewrite uint_value_to_uint in Hu. specialize (Hu Hfit).
      rewrite Hs in *.
      apply (ParseInt_no_sign_range c rest (Z.pos p) None); auto. lia.
    + pose proof (ParseUint_decimal_overflow _ Hd) as Hu.
      rewrite uint_value_to_uint in Hu. specialize (Hu ltac:(lia)).
      rewrite Hs in *.
      eapply ParseInt_no_sign_range; [assumption | assumption | exact Hu | reflexivity | lia].
  - rewrite string_of_to_uint.
    pose proof (to_uint_leading_nonzero p) as Hd.
    destruct (Z_le_gt_dec (Z.pos p) (2 ^ 64 - 1)) as [Hfit|Hover].
    + pose proof (ParseUint_decimal _ Hd) as Hu.
      rewrite uint_value_to_uint in Hu. specialize (Hu Hfit).
      apply (ParseInt_minus_range _ (Z.pos p) None); auto.
      change (Z.neg p) with (- Z.pos p) in Hn. lia.
    + pose proof (ParseUint_decimal_overflow _ Hd) as Hu.
      rewrite uint_value_to_uint in Hu. specialize (Hu ltac:(lia)).
      eapply ParseInt_minus_range; [exact Hu | reflexivity | lia].
Qed.

Lemma fmt_v_int_not_auto (n : Z) : String.eqb (fmt_v (AInt n)) "auto" = false.
Proof.
  apply String.eqb_neq. intros Heq.
  destruct (Z_le_dec (- 2 ^ 63) n) as [Hlo|Hlo];
    [destruct (Z_le_dec n (2 ^ 63 - 1)) as [Hhi|Hhi]|].
  - pose proof (ParseInt_fmt_v n (conj Hlo Hhi)) as H.
    rewrite Heq in H. discriminate H.
  - pose proof (ParseInt_fmt_v_range n ltac:(lia)) as H.
    rewrite Heq in H. discriminate H.
  - pose proof (ParseInt_fmt_v_range n ltac:(lia)) as H.
    rewrite Heq in H. discriminate H.
Qed.

Lemma fmt_v_int_not_empty (n : Z) : fmt_v (AInt n) <> EmptyString.
Proof.
  intros Heq.
  destruct (Z_le_dec (- 2 ^ 63) n) as [Hlo|Hlo];
    [destruct (Z_le_dec n (2 ^ 63 - 1)) as [Hhi|Hhi]|].
  - pose proof (ParseInt_fmt_v n (conj Hlo Hhi)) as H.
    rewrite Heq in H. discriminate H.
  - pose proof (ParseInt_fmt_v_range n ltac:(lia)) as H.
    rewrite Heq in H. discriminate H.
  - pose proof (ParseInt_fmt_v_range n ltac:(lia)) as H.
    rewrite Heq in H. discriminate H.
Qed.

Lemma mtu_decimal_in_int64 (n : Z) (path : cty.Path) :
  - 2 ^ 63 <= n <= 2 ^ 63 - 1 ->
  PropMtuRw_validate (AString (fmt_v (AInt n))) path =
    if (n <? 0) || (n >? 65535)
    then Return [diag.mkDiagnostic diag.Error
                   (String.append
                      "Expected MTU value to be in the range (0 - 65535), got "
                      (fmt_v (AInt n)))
                   EmptyString]
    else Return [].
Proof.
  intros Hn. unfold PropMtuRw_validate.
  rewrite fmt_v_int_not_auto, (ParseInt_fmt_v n Hn). reflexivity.
Qed.

Lemma mtu_decimal_beyond_int64 (n : Z) (path : cty.Path) :
  ~ - 2 ^ 63 <= n <= 2 ^ 63 - 1 ->
  PropMtuRw_validate (AString (fmt_v (AInt n))) path =
    Return [diag.mkDiagnostic diag.Error
              "Expected MTU value to be integer or 'auto'" EmptyString].
Proof.
  intros Hn. unfold PropMtuRw_validate.
  rewrite fmt_v_int_not_auto, (ParseInt_fmt_v_range n Hn). reflexivity.
Qed.

(** X4: the MTU validator on plain decimal numbers.  For every integer [n],
    written in decimal as [%v] prints it, the validator of [PropMtuRw] returns
    no diagnostics exactly when 0 <= n <= 65535.  An [n] outside that range
    that fits [int64] gets the range message, which ends with the text of
    [n]; an [n] that does not fit [int64] gets the message for values that
    are not integers. *)
Theorem mtu_validator_on_decimal_text (n : Z) (path : cty.Path) :
  (PropMtuRw_validate (AString (fmt_v (AInt n))) path = Return [] <->
   0 <= n <= 65535) /\
  (- 2 ^ 63 <= n <= 2 ^ 63 - 1 -> ~ 0 <= n <= 65535 ->
   PropMtuRw_validate (AString (fmt_v (AInt n))) path =
     Return [diag.mkDiagnostic diag.Error
               (String.append
                  "Expected MTU value to be in the range (0 - 65535), got "
                  (fmt_v (AInt n)))
               EmptyString]) /\
  (~ - 2 ^ 63 <= n <= 2 ^ 63 - 1 ->
   PropMtuRw_validate (AString (fmt_v (AInt n))) path =
     Return [diag.mkDiagnostic diag.Error
               "Expected MTU value to be integer or 'auto'" EmptyString]).
Proof.
  assert (H63 : 2 ^ 63 = 9223372036854775808) by reflexivity.
  split; [|split].
  - destruct (Z_le_dec (- 2 ^ 63) n) as [Hlo|Hlo];
      [destruct (Z_le_dec n (2 ^ 63 - 1)) as [Hhi|Hhi]|].
    + rewrite (mtu_decimal_in_int64 n path (conj Hlo Hhi)).
      destruct ((n <? 0) || (n >? 65535)) eqn:Hr.
      * split; [discriminate|]. intros Hin.
        apply orb_true_iff in Hr as [Hr|Hr]; lia.
      * split; [|reflexivity]. intros _.
        apply orb_false_iff in Hr as [H1 H2]. lia.
    + rewrite (mtu_decimal_beyond_int64 n path) by lia.
      split; [discriminate | lia].
    + rewrite (mtu_decimal_beyond_int64 n path) by lia.
      split; [discriminate | lia].
  - intros Hn Hout. rewrite (mtu_decimal_in_int64 n path Hn).
    replace ((n <? 0) || (n >? 65535)) with true; [reflexivity|].
    symmetry. apply orb_true_iff.
    destruct (Z_lt_dec n 0); [left; now apply Z.ltb_lt|].
    right. rewrite Z.gtb_ltb. apply Z.ltb_lt. lia.
  - apply mtu_decimal_beyond_int64.
Qed.

Lemma mtu_validator_on_decimal_text_witness :
  PropMtuRw_validate (AString (fmt_v (AInt 9000))) [] = Return [] /\
  PropMtuRw_validate (AString (fmt_v (AInt (-1)))) [] =
    Return [diag.mkDiagnostic diag.Error
              "Expected MTU value to be in the range (0 - 65535), got -1"
              EmptyString] /\
  PropMtuRw_validate (AString (fmt_v (AInt (2 ^ 64)))) [] =
    Return [diag.mkDiagnostic diag.Error
              "Expected MTU value to be integer or 'auto'" EmptyString].
Proof.
  split; [|split].
  - apply (proj1 (mtu_validator_on_decimal_text 9000 [])). lia.
  - apply (proj1 (proj2 (mtu_validator_on_decimal_text (-1) []))); lia.
  - apply (proj2 (proj2 (mtu_validator_on_decimal_text (2 ^ 64) []))). lia.
Defined.

(** X5: [HexEqual] agrees with the numbers.  A text that parses to [n] is
    suppressed against the decimal text of [n], in either order; and on the
    decimal texts of two [int64] numbers [HexEqual] returns whether the
    numbers are equal. *)
Theorem HexEqual_against_decimal_text (k : string) (d : schema.ResourceData) :
  (forall (v : string) (n : Z),
     strconv.ParseInt v 0 64 = (n, None) ->
     HexEqual k v (fmt_v (AInt n)) d = Return true /\
     HexEqual k (fmt_v (AInt n)) v d = Return true) /\
  (forall a b : Z,
     - 2 ^ 63 <= a <= 2 ^ 63 - 1 -> - 2 ^ 63 <= b <= 2 ^ 63 - 1 ->
     HexEqual k (fmt_v (AInt a)) (fmt_v (AInt b)) d = Return (a =? b)).
Proof.
  split.
  - intros v n Hv.
    pose proof (ParseInt_0_64_shape v n None Hv) as Hn. cbn in Hn.
    pose proof (ParseInt_fmt_v n Hn) as Hdec.
    assert (Hne : v <> EmptyString) by (intros ->; discriminate Hv).
    assert (Hvd : HexEqual k v (fmt_v (AInt n)) d = Return true).
    { destruct (string_dec v (fmt_v (AInt n))) as [<-|Hdiff];
        [apply HexEqual_same|].
      rewrite (HexEqual_parsed k v (fmt_v (AInt n)) d n n);
        auto using fmt_v_int_not_empty.
      now rewrite Z.eqb_refl. }
    split; [assumption | now apply HexEqual_swap].
  - intros a b Ha Hb.
    pose proof (ParseInt_fmt_v a Ha) as Hpa.
    pose proof (ParseInt_fmt_v b Hb) as Hpb.
    destruct (string_dec (fmt_v (AInt a)) (fmt_v (AInt b))) as [Heq|Hdiff].
    + rewrite Heq in Hpa. rewrite Hpa in Hpb. injection Hpb as ->.
      rewrite HexEqual_same. now rewrite Z.eqb_refl.
    + apply HexEqual_parsed; auto using fmt_v_int_not_empty.
Qed.

Lemma HexEqual_against_decimal_text_witness :
  (HexEqual "mac" "0x1F" (fmt_v (AInt 31)) no_data = Return true /\
   HexEqual "mac" (fmt_v (AInt 31)) "0x1F" no_data = Return true) /\
  HexEqual "mac" (fmt_v (AInt (-7))) (fmt_v (AInt 7)) no_data = Return (-7 =? 7).
Proof.
  split.
  - apply (proj1 (HexEqual_against_decimal_text "mac" no_data) "0x1F" 31).
    reflexivity.
  - apply (proj2 (HexEqual_against_decimal_text "mac" no_data) (-7) 7); lia.
Defined.

(** ** Every match the matcher reports is a match *)

Section MatcherSound.

Variable txt : list ascii.

Lemma rounds_star (r : regexp.Regexp) :
  (forall i j, In j (regexp.ends r txt i) -> regexp.Matches txt r i j) ->
  forall i k, rtc (fun a b => In b (regexp.ends r txt a)) i k ->
  regexp.Matches txt (regexp.Star r) i k.
Proof.
  intros Hr i k Hreach. induction Hreach as [i|i j k Hij _ IH].
  - constructor.
  - apply regexp.M_StarCons with j; [apply Hr; exact Hij | exact IH].
Qed.

Lemma ends_sound (r : regexp.Regexp) :
  forall i j, In j (regexp.ends r txt i) -> regexp.Matches txt r i j.
Proof.
  induction r as [|c|ranges| | |r IH|r1 IH1 r2 IH2|r1 IH1 r2 IH2|r IH|r IH|r IH];
    intros i j Hj; cbn [regexp.ends] in Hj.
  - destruct Hj as [<-|[]]. constructor.
  - destruct (nth_error txt i) as [c'|] eqn:Hnth; [|contradiction].
    destruct (Ascii.eqb c c') eqn:Hc; [|contradiction].
    apply Ascii.eqb_eq in Hc. subst c'. destruct Hj as [<-|[]].
    now constructor.
  - destruct (nth_error txt i) as [c'|] eqn:Hnth; [|contradiction].
    destruct (regexp.in_class ranges c') eqn:Hc; [|contradiction].
    destruct Hj as [<-|[]]. now apply regexp.M_CharClass with c'.
  - destruct (i =? 0)%nat eqn:Hi; [|contradiction].
    apply Nat.eqb_eq in Hi. destruct Hj as [<-|[]]. subst. constructor.
  - destruct (i =? List.length txt)%nat eqn:Hi; [|contradiction].
    apply Nat.eqb_eq in Hi. destruct Hj as [<-|[]]. subst. constructor.
  - constructor. now apply IH.
  - apply in_flat_map in Hj as (m & Hm & Hj).
    apply regexp.M_Concat with m; [now apply IH1 | now apply IH2].
  - apply in_app_or in Hj as [Hj|Hj];
      [apply regexp.M_AlternateL; now apply IH1
      |apply regexp.M_AlternateR; now apply IH2].
  - apply iterate_sound in Hj. now apply rounds_star.
  - apply in_flat_map in Hj as (m & Hm & Hj).
    apply regexp.M_Plus with m; [now apply IH|].
    apply iterate_sound in Hj. now apply rounds_star.
  - apply in_app_or in Hj as [Hj|[<-|[]]];
      [apply regexp.M_QuestSome; now apply IH | constructor].
Qed.

Lemma Matches_le (r : regexp.Regexp) (i j : nat) :
  regexp.Matches txt r i j -> (i <= j)%nat.
Proof. induction 1; lia. Qed.

Lemma between_refl (i : nat) : between txt i i = [].
Proof. unfold between. now rewrite Nat.sub_diag. Qed.

Lemma between_app (i j k : nat) :
  (i <= j)%nat -> (j <= k)%nat ->
  (between txt i j ++ between txt j k)%list = between txt i k.
Proof.
  intros Hij Hjk. unfold between.
  replace (drop j txt) with (drop (j - i) (drop i txt))
    by (rewrite drop_drop; f_equal; lia).
  rewrite take_take_drop. f_equal. lia.
Qed.

Lemma between_one (i : nat) (c : ascii) :
  nth_error txt i = Some c -> between txt i (S i) = [c].
Proof.
  unfold between. replace (S i - i)%nat with 1%nat by lia.
  revert i. induction txt as [|x l IH]; intros i Hc.
  - destruct i; discriminate.
  - destruct i as [|i]; cbn in *.
    + injection Hc as ->. reflexivity.
    + now apply IH.
Qed.

Lemma between_all : between txt 0 (List.length txt) = txt.
Proof.
  unfold between. rewrite Nat.sub_0_r, drop_0. now apply take_ge.
Qed.

Lemma between_suffix (i : nat) :
  (take i txt ++ between txt i (List.length txt))%list = txt.
Proof.
  unfold between. rewrite (take_ge (drop i txt)).
  - apply take_drop.
  - rewrite List.length_skipn. lia.
Qed.

End MatcherSound.

(** [MatchString] answers [true] only when some part of the text matches. *)
Lemma MatchString_inv (r : regexp.Regexp) (s : string) :
  regexp.MatchString r s = true ->
  exists i j, regexp.Matches (list_ascii_of_string s) r i j.
Proof.
  unfold regexp.MatchString. intros H.
  apply existsb_exists in H as (i & _ & Hi).
  destruct (regexp.ends r (list_ascii_of_string s) i) as [|j l] eqn:He;
    [discriminate|].
  exists i, j. apply ends_sound. rewrite He. now left.
Qed.

Lemma StringMatch_accepts_iff (r : regexp.Regexp) (message s : string) :
  accepts (validation.StringMatch r message) s <-> regexp.MatchString r s = true.
Proof.
  split; [|apply StringMatch_accepts].
  intros H. specialize (H EmptyString). unfold validation.StringMatch in H.
  destruct (regexp.MatchString r s); [reflexivity | discriminate H].
Qed.

(** ** The exact language of the duration validators *)

Lemma str_app (a b : list ascii) :
  string_of_list_ascii (a ++ b)
  = String.append (string_of_list_ascii a) (string_of_list_ascii b).
Proof.
  induction a as [|x a IH]; [reflexivity|].
  cbn [app string_of_list_ascii]. rewrite IH. reflexivity.
Qed.

Lemma in_class_is_digit (c : ascii) :
  regexp.in_class [("0"%char, "9"%char)] c = true ->
  DurationModel.is_digit c = true.
Proof.
  unfold DurationModel.is_digit, strconv.byte, regexp.in_class.
  cbn [existsb]. rewrite orb_false_r.
  change (N_of_ascii "0") with 48%N. change (N_of_ascii "9") with 57%N.
  intros H. apply andb_true_iff in H as [H1 H2].
  apply N.leb_le in H1, H2.
  apply andb_true_iff. split; apply Z.leb_le; lia.
Qed.

Ltac inv_matches :=
  repeat match goal with
         | H : regexp.Matches _ regexp.EmptyMatch _ _ |- _ =>
             inversion H; subst; clear H
         | H : regexp.Matches _ (regexp.Literal _) _ _ |- _ =>
             inversion H; subst; clear H
         | H : regexp.Matches _ (regexp.CharClass _) _ _ |- _ =>
             inversion H; subst; clear H
         | H : regexp.Matches _ regexp.BeginText _ _ |- _ =>
             inversion H; subst; clear H
         | H : regexp.Matches _ regexp.EndText _ _ |- _ =>
             inversion H; subst; clear H
         | H : regexp.Matches _ (regexp.Capture _) _ _ |- _ =>
             inversion H; subst; clear H
         | H : regexp.Matches _ (regexp.Concat _ _) _ _ |- _ =>
             inversion H; subst; clear H
         | H : regexp.Matches _ (regexp.Alternate _ _) _ _ |- _ =>
             inversion H; subst; clear H
         | H : regexp.Matches _ (regexp.Quest _) _ _ |- _ =>
             inversion H; subst; clear H
         end.

Lemma digit_star_inv (txt : list ascii) (i j : nat) :
  regexp.Matches txt (regexp.Star regexp.digit) i j ->
  Forall (fun c => DurationModel.is_digit c = true) (between txt i j).
Proof.
  intros H. remember (regexp.Star regexp.digit) as r eqn:Hr.
  induction H as [| | | | | | | | | r0 i | r0 i j k H1 _ H2 IH | | |];
    try discriminate Hr.
  - rewrite between_refl. constructor.
  - injection Hr as ->. specialize (IH eq_refl).
    pose proof (Matches_le _ _ _ _ H2) as Hjk.
    unfold regexp.digit in H1. inv_matches.
    rewrite <- (between_app txt i (S i) k) by lia.
    erewrite between_one by eassumption.
    constructor; [now apply in_class_is_digit | assumption].
Qed.

Lemma digits_inv (txt : list ascii) (i j : nat) :
  regexp.Matches txt (regexp.Plus regexp.digit) i j ->
  digits (string_of_list_ascii (between txt i j)) /\ (i < j)%nat.
Proof.
  intros H. inversion H as [| | | | | | | | | | | r0 i0 m j0 H1 H2 | |]; subst.
  pose proof (Matches_le _ _ _ _ H2) as Hmj.
  pose proof (digit_star_inv _ _ _ H2) as Hrest.
  unfold regexp.digit in H1. inv_matches.
  split; [|lia].
  rewrite <- (between_app txt i (S i) j) by lia.
  erewrite between_one by eassumption.
  split; [discriminate|].
  rewrite list_ascii_of_string_of_list_ascii.
  constructor; [now apply in_class_is_digit | assumption].
Qed.

Section TokenSequencesInv.

Variable token : regexp.Regexp.
Variable units : list string.
Hypothesis token_inv :
  forall txt i j, regexp.Matches txt token i j ->
  duration_token units (string_of_list_ascii (between txt i j)) /\ (i < j)%nat.

Lemma star_tokens_inv (txt : list ascii) (i j : nat) :
  regexp.Matches txt (regexp.Star token) i j ->
  i = j \/ duration_text units (string_of_list_ascii (between txt i j)).
Proof.
  intros H. remember (regexp.Star token) as r eqn:Hr.
  induction H as [| | | | | | | | | r0 i | r0 i j k H1 _ H2 IH | | |];
    try discriminate Hr; [now left|].
  injection Hr as ->. right.
  destruct (token_inv _ _ _ H1) as [Htok Hij].
  pose proof (Matches_le _ _ _ _ H2) as Hjk.
  destruct (IH eq_refl) as [<-|Hrest]; [now apply text_last|].
  rewrite <- (between_app txt i j k) by lia. rewrite str_app.
  now apply text_more.
Qed.

Lemma plus_tokens_inv (txt : list ascii) (i j : nat) :
  regexp.Matches txt (regexp.Plus token) i j ->
  duration_text units (string_of_list_ascii (between txt i j)).
Proof.
  intros H. inversion H as [| | | | | | | | | | | r0 i0 m j0 H1 H2 | |]; subst.
  destruct (token_inv _ _ _ H1) as [Htok Him].
  pose proof (Matches_le _ _ _ _ H2) as Hmj.
  destruct (star_tokens_inv _ _ _ H2) as [<-|Hrest]; [now apply text_last|].
  rewrite <- (between_app txt i m j) by lia. rewrite str_app.
  now apply text_more.
Qed.

End TokenSequencesInv.

Lemma one_of_smhdw_inv (c : ascii) :
  regexp.in_class (List.map (fun c => (c, c)) (list_ascii_of_string "smhdw")) c = true ->
  In (String c EmptyString) ValidationTime_units.
Proof.
  destruct c as [[] [] [] [] [] [] [] []]; intros H;
    first [discriminate H | cbn; tauto].
Qed.

Lemma ValidationTime_token_inv (txt : list ascii) (i j : nat) :
  regexp.Matches txt
    (regexp.Capture
       (regexp.Concat (regexp.Plus regexp.digit)
          (regexp.Quest (regexp.one_of "smhdw")))) i j ->
  duration_token ValidationTime_units (string_of_list_ascii (between txt i j))
  /\ (i < j)%nat.
Proof.
  intros H. inversion H as [| | | | |r0 i0 j0 Hc| | | | | | | |]; subst; clear H.
  inversion Hc as [| | | | | |r1 r2 i0 m j0 Hd Hq | | | | | | |]; subst; clear Hc.
  destruct (digits_inv _ _ _ Hd) as [Hds Him]. clear Hd.
  unfold regexp.one_of in Hq.
  inversion Hq as [| | | | | | | | | | | |r0 i0|r0 i0 j0 Hu]; subst; clear Hq.
  - split; [now apply token_bare | assumption].
  - inv_matches. split; [|lia].
    rewrite <- (between_app txt i m (S m)) by lia. rewrite str_app.
    erewrite (between_one txt m) by eassumption.
    apply token_unit; [assumption | now apply one_of_smhdw_inv].
Qed.

Lemma ArpTimeout_token_inv (txt : list ascii) (i j : nat) :
  regexp.Matches txt
    (regexp.Capture
       (regexp.Concat (regexp.Plus regexp.digit)
          (regexp.Quest
             (regexp.Capture
                (regexp.alt
                   [ regexp.lit "ms"; regexp.lit "s"; regexp.lit "M";
                     regexp.lit "h"; regexp.lit "d" ]))))) i j ->
  duration_token ArpTimeout_units (string_of_list_ascii (between txt i j))
  /\ (i < j)%nat.
Proof.
  intros H. inversion H as [| | | | |r0 i0 j0 Hc| | | | | | | |]; subst; clear H.
  inversion Hc as [| | | | | |r1 r2 i0 m j0 Hd Hq | | | | | | |]; subst; clear Hc.
  destruct (digits_inv _ _ _ Hd) as [Hds Him]. clear Hd.
  cbn [regexp.alt regexp.lit] in Hq.
  inversion Hq as [| | | | | | | | | | | |r0 i0|r0 i0 j0 Hu]; subst; clear Hq.
  - split; [now apply token_bare | assumption].
  - inv_matches; (split; [|lia]).
    + rewrite <- (between_app txt i m (S (S m))) by lia. rewrite str_app.
      rewrite <- (between_app txt m (S m) (S (S m))) by lia.
      erewrite (between_one txt m), (between_one txt (S m)) by eassumption.
      apply token_unit; [assumption | cbn; tauto].
    + rewrite <- (between_app txt i m (S m)) by lia. rewrite str_app.
      erewrite (between_one txt m) by eassumption.
      apply token_unit; [assumption | cbn; tauto].
    + rewrite <- (between_app txt i m (S m)) by lia. rewrite str_app.
      erewrite (between_one txt m) by eassumption.
      apply token_unit; [assumption | cbn; tauto].
    + rewrite <- (between_app txt i m (S m)) by lia. rewrite str_app.
      erewrite (between_one txt m) by eassumption.
      apply token_unit; [assumption | cbn; tauto].
    + rewrite <- (between_app txt i m (S m)) by lia. rewrite str_app.
      erewrite (between_one txt m) by eassumption.
      apply token_unit; [assumption | cbn; tauto].
Qed.

(** X6: [ValidationTime] accepts exactly the non-empty sequences of tokens
    made of an integer and an optional unit among s, m, h, d, w.  The pattern
    is anchored at both ends, so nothing may precede or follow the tokens,
    and the empty text is rejected. *)
Theorem ValidationTime_accepts_iff (s : string) :
  accepts ValidationTime s <-> duration_text ValidationTime_units s.
Proof.
  unfold ValidationTime. rewrite StringMatch_accepts_iff.
  split; [|apply ValidationTime_matches].
  intros H. apply MatchString_inv in H as (i & j & H).
  unfold ValidationTime_regexp in H. cbn [regexp.cat] in H.
  inversion H as [| | | | | |r1 r2 i0 m j0 Hb Hrest | | | | | | |]; subst.
  inversion Hrest as [| | | | | |r1 r2 i0 n j0 Htok He | | | | | | |]; subst.
  inversion Hb; subst. inversion He; subst.
  apply (plus_tokens_inv _ _ ValidationTime_token_inv) in Htok.
  now rewrite between_all, string_of_list_ascii_of_string in Htok.
Qed.

(** X7: the validator of the ARP timeout accepts exactly the empty text, the
    texts that end with [auto], and the texts that end with a non-empty
    sequence of tokens made of an integer and an optional unit among ms, s,
    M, h, d.  Only the first alternative of its pattern is anchored at the
    start, so anything may precede [auto] or the tokens. *)
Theorem ArpTimeout_accepts_iff (s : string) :
  accepts PropArpTimeoutRw_validate s <->
  s = EmptyString \/
  (exists p, s = String.append p "auto") \/
  (exists p t, duration_text ArpTimeout_units t /\ s = String.append p t).
Proof.
  unfold PropArpTimeoutRw_validate. rewrite StringMatch_accepts_iff. split.
  - intros H. apply MatchString_inv in H as (i & j & H).
    unfold ArpTimeout_regexp in H. cbn [regexp.alt] in H.
    inversion H as [| | | | | | |r1 r2 i0 j0 Ha|r1 r2 i0 j0 Hbc| | | | |];
      subst; clear H.
    + left. inv_matches.
      destruct s; [reflexivity | discriminate].
    + inversion Hbc as [| | | | | | |r1 r2 i0 j0 Hb|r1 r2 i0 j0 Hc| | | | |];
        subst; clear Hbc.
      * right. left. cbn [regexp.lit] in Hb. inv_matches.
        exists (string_of_list_ascii (take i (list_ascii_of_string s))).
        rewrite <- (string_of_list_ascii_of_string s) at 1.
        rewrite <- (between_suffix (list_ascii_of_string s) i) at 1.
        rewrite str_app. f_equal.
        match goal with
        | H : S (S (S (S i))) = _ |- _ => rewrite <- H
        end.
        rewrite <- (between_app _ i (S i) (S (S (S (S i))))) by lia.
        rewrite <- (between_app _ (S i) (S (S i)) (S (S (S (S i))))) by lia.
        rewrite <- (between_app _ (S (S i)) (S (S (S i))) (S (S (S (S i))))) by lia.
        erewrite !between_one by eassumption. reflexivity.
      * right. right.
        inversion Hc as [| | | | | |r1 r2 i0 m j0 Htok He | | | | | | |];
          subst; clear Hc.
        inversion He; subst.
        apply (plus_tokens_inv _ _ ArpTimeout_token_inv) in Htok.
        exists (string_of_list_ascii (take i (list_ascii_of_string s))),
               (string_of_list_ascii
                  (between (list_ascii_of_string s) i
                     (List.length (list_ascii_of_string s)))).
        split; [assumption|].
        now rewrite <- str_app, between_suffix, string_of_list_ascii_of_string.
  - intros [-> | [(p & ->) | (p & t & Ht & ->)]].
    + reflexivity.
    + apply MatchString_of_matches_at
        with (list_ascii_of_string p) (list_ascii_of_string "auto") [].
      { now rewrite chars_append, app_nil_r. }
      unfold ArpTimeout_regexp. cbn [regexp.alt regexp.lit].
      apply ma_alternate_r, ma_alternate_l.
      apply ma_cast with (list_ascii_of_string "auto" ++ [])%list;
        [apply app_nil_r|].
      apply ma_concat; [|apply ma_end].
      change (list_ascii_of_string "auto")
        with (["a"%char] ++ ["u"%char] ++ ["t"%char] ++ ["o"%char])%list.
      repeat (apply ma_concat; [apply ma_literal|]). apply ma_literal.
    + apply MatchString_of_matches_at
        with (list_ascii_of_string p) (list_ascii_of_string t) [].
      { now rewrite chars_append, app_nil_r. }
      unfold ArpTimeout_regexp. cbn [regexp.alt].
      apply ma_alternate_r, ma_alternate_r.
      apply ma_cast with (list_ascii_of_string t ++ [])%list;
        [apply app_nil_r|].
      apply ma_concat; [|apply ma_end].
      now apply (ma_tokens _ ArpTimeout_units ArpTimeout_token).
Qed.

Lemma ValidationTime_accepts_iff_witness :
  accepts ValidationTime "1h30m".
Proof.
  apply (proj2 (ValidationTime_accepts_iff "1h30m")), text_1h30m.
Defined.

Lemma ArpTimeout_accepts_iff_witness :
  accepts PropArpTimeoutRw_validate "not auto".
Proof.
  apply (proj2 (ArpTimeout_accepts_iff "not auto")).
  right. left. exists "not ". reflexivity.
Defined.

(** ** Read filters: small maps and the separator *)

Lemma buildReadFilter_permutes (m : gmap string any) (res : list string) :
  buildReadFilter m res -> res ≡ₚ render <$> map_to_list m.
Proof.
  intros [visit Hvisit]. rewrite buildReadFilter_loop_map.
  unfold range_order in Hvisit. now rewrite Hvisit.
Qed.

Lemma buildReadFilter_canonical (m : gmap string any) :
  buildReadFilter m (render <$> map_to_list m).
Proof.
  rewrite <- buildReadFilter_loop_map. constructor.
  unfold range_order. reflexivity.
Qed.

(** X8: with fewer than two entries the order of iteration cannot show.  The
    empty filter map always yields the empty sequence, and a filter map with
    the single entry [k], [v] always yields the one-element sequence
    [k=v]. *)
Theorem buildReadFilter_small_maps (k : string) (v : any) (res : list string) :
  (buildReadFilter ∅ res <-> res = []) /\
  (buildReadFilter {[ k := v ]} res <-> res = [Sprintf_eq k v]).
Proof.
  split; split.
  - intros H. apply buildReadFilter_permutes in H.
    rewrite map_to_list_empty in H. now apply Permutation_nil_r in H.
  - intros ->. pose proof (buildReadFilter_canonical ∅) as H.
    now rewrite map_to_list_empty in H.
  - intros H. apply buildReadFilter_permutes in H.
    rewrite map_to_list_singleton in H. now apply Permutation_singleton_r in H.
  - intros ->. pose proof (buildReadFilter_canonical {[ k := v ]}) as H.
    now rewrite map_to_list_singleton in H.
Qed.

Lemma buildReadFilter_small_maps_witness :
  buildReadFilter {[ "name" := AString "ether1" ]} ["name=ether1"].
Proof.
  apply (proj2 (proj2 (buildReadFilter_small_maps
                         "name" (AString "ether1") ["name=ether1"]))).
  reflexivity.
Defined.

Lemma append_assoc (a b c : string) :
  String.append (String.append a b) c = String.append a (String.append b c).
Proof.
  induction a as [|x a IH]; [reflexivity|].
  change (String.append (String x a) b) with (String x (String.append a b)).
  change (String.append (String x (String.append a b)) c)
    with (String x (String.append (String.append a b) c)).
  change (String.append (String x a) (String.append b c))
    with (String x (String.append a (String.append b c))).
  now rewrite IH.
Qed.

Lemma Contains_eq_cons (c : ascii) (k : string) :
  strings.Contains (String c k) "=" = false ->
  c <> "="%char /\ strings.Contains k "=" = false.
Proof.
  unfold strings.Contains; fold strings.Contains. intros H.
  apply orb_false_iff in H as [Hp Hk]. split; [|assumption].
  intros ->. cbn in Hp. destruct k; discriminate Hp.
Qed.

Lemma append_nil_l (s : string) : String.append EmptyString s = s.
Proof. reflexivity. Qed.

Lemma append_cons_l (c : ascii) (a b : string) :
  String.append (String c a) b = String c (String.append a b).
Proof. reflexivity. Qed.

(** Keys without the separator can be read back from the rendering. *)
Lemma Sprintf_eq_key (k1 k2 : string) (v1 v2 : any) :
  strings.Contains k1 "=" = false -> strings.Contains k2 "=" = false ->
  Sprintf_eq k1 v1 = Sprintf_eq k2 v2 -> k1 = k2 /\ fmt_v v1 = fmt_v v2.
Proof.
  unfold Sprintf_eq. generalize (fmt_v v1) (fmt_v v2). clear v1 v2.
  revert k2. induction k1 as [|c1 k1 IH]; intros k2 w1 w2 H1 H2 Heq.
  - destruct k2 as [|c2 k2];
      rewrite ?append_cons_l, ?append_nil_l in Heq.
    + injection Heq as ->. now split.
    + apply Contains_eq_cons in H2 as [Hc _].
      injection Heq as Hc' _. congruence.
  - apply Contains_eq_cons in H1 as [Hc1 H1].
    destruct k2 as [|c2 k2];
      rewrite ?append_cons_l, ?append_nil_l in Heq.
    + injection Heq as Hc' _. congruence.
    + apply Contains_eq_cons in H2 as [Hc2 H2].
      injection Heq as -> Heq.
      destruct (IH k2 w1 w2 H1 H2 Heq) as [-> ->]. now split.
Qed.

(** X9: the separator is not escaped.  A key that contains [=] makes the
    rendering ambiguous: the entry with key [k=v1] and value [v2] and the
    entry with key [k] and value [v1=v2] give the same string.  When no key of
    the filter map contains [=], the key and the printed value can be read
    back from each string, and the returned sequence has no duplicates. *)
Theorem buildReadFilter_separator (m : gmap string any) (res : list string) :
  (forall k v1 v2 : string,
     Sprintf_eq (String.append k (String.append "=" v1)) (AString v2)
     = Sprintf_eq k (AString (String.append v1 (String.append "=" v2)))) /\
  (forall (k1 k2 : string) (v1 v2 : any),
     strings.Contains k1 "=" = false -> strings.Contains k2 "=" = false ->
     Sprintf_eq k1 v1 = Sprintf_eq k2 v2 -> k1 = k2 /\ fmt_v v1 = fmt_v v2) /\
  ((forall k v, m !! k = Some v -> strings.Contains k "=" = false) ->
   buildReadFilter m res -> NoDup res).
Proof.
  split; [|split].
  - intros k v1 v2. unfold Sprintf_eq. cbn [fmt_v].
    now rewrite !append_assoc.
  - apply Sprintf_eq_key.
  - intros Hkeys Hres. apply NoDup_ListNoDup.
    rewrite (buildReadFilter_permutes m res Hres).
    apply NoDup_fmap_2_strong; [|apply NoDup_map_to_list].
    intros [k1 v1] [k2 v2] Hin1 Hin2 Heq.
    apply elem_of_map_to_list in Hin1, Hin2.
    unfold render in Heq. cbn [fst snd] in Heq.
    apply Sprintf_eq_key in Heq as [-> _]; eauto.
    congruence.
Qed.

Lemma buildReadFilter_separator_witness :
  NoDup ["a=1"; "b=2"].
Proof.
  apply (proj2 (proj2 (buildReadFilter_separator two_filters ["a=1"; "b=2"])));
    [|apply two_filters_run_ab].
  intros k v H. unfold two_filters in H.
  destruct (decide (k = "a")) as [->|Ha]; [reflexivity|].
  rewrite lookup_insert_ne in H by congruence.
  destruct (decide (k = "b")) as [->|Hb]; [reflexivity|].
  rewrite lookup_insert_ne in H by congruence.
  rewrite lookup_empty in H. discriminate H.
Defined.

(** ** The exact language of the address validator *)

Lemma in_class_range (lo hi c : ascii) (l h : Z) :
  strconv.byte lo = l -> strconv.byte hi = h ->
  (regexp.in_class [(lo, hi)] c = true <-> l <= strconv.byte c <= h).
Proof.
  intros <- <-. unfold regexp.in_class, strconv.byte. cbn [existsb].
  rewrite orb_false_r, andb_true_iff, !N.leb_le. lia.
Qed.

Lemma is_digit_range (c : ascii) :
  DurationModel.is_digit c = true <-> 48 <= strconv.byte c <= 57.
Proof.
  unfold DurationModel.is_digit. rewrite andb_true_iff, !Z.leb_le. reflexivity.
Qed.

Lemma byte_inj (c c' : ascii) : strconv.byte c = strconv.byte c' -> c = c'.
Proof.
  unfold strconv.byte. intros H. apply N2Z.inj in H.
  rewrite <- (ascii_N_embedding c), <- (ascii_N_embedding c'). now rewrite H.
Qed.

Ltac class_goal :=
  match goal with
  | |- regexp.in_class [(?lo, ?hi)] ?c = true =>
      apply (in_class_range lo hi c _ _ eq_refl eq_refl);
      change (strconv.byte lo) with ltac:(let v := eval vm_compute in (strconv.byte lo) in exact v);
      change (strconv.byte hi) with ltac:(let v := eval vm_compute in (strconv.byte hi) in exact v);
      lia
  end.

Ltac reshape l := eapply ma_cast with l; [reflexivity|].

Lemma octet_matches (a : string) :
  octet a -> forall pre post,
  regexp.matches_at octet_regexp pre (list_ascii_of_string a) post.
Proof.
  intros ([Hne Hall] & Hlen & Hval) pre post.
  unfold octet_regexp. cbn [regexp.alt regexp.cat regexp.lit].
  destruct a as [|c1 [|c2 [|c3 [|c4 a]]]];
    [contradiction | | | | cbn in Hlen; lia];
    cbn [list_ascii_of_string] in *;
    repeat match goal with
           | H : Forall _ (_ :: _) |- _ => inversion H; subst; clear H
           | H : DurationModel.is_digit _ = true |- _ =>
               apply is_digit_range in H
           end.
  - apply ma_alternate_r, ma_alternate_r.
    reshape ([] ++ [c1] ++ [])%list.
    apply ma_concat; [apply ma_quest_none|].
    apply ma_concat; [apply ma_class; class_goal | apply ma_quest_none].
  - apply ma_alternate_r, ma_alternate_r.
    reshape ([] ++ [c1] ++ [c2])%list.
    apply ma_concat; [apply ma_quest_none|].
    apply ma_concat; [apply ma_class; class_goal|].
    apply ma_quest_some, ma_class. class_goal.
  - unfold digits_value in Hval. cbn [list_ascii_of_string fold_left] in Hval.
    destruct (Z_le_gt_dec (strconv.byte c1) 49) as [Hb1|Hb1].
    + apply ma_alternate_r, ma_alternate_r.
      reshape ([c1] ++ [c2] ++ [c3])%list.
      apply ma_concat; [apply ma_quest_some, ma_class; class_goal|].
      apply ma_concat; [apply ma_class; class_goal|].
      apply ma_quest_some, ma_class. class_goal.
    + assert (c1 = "2"%char) as ->
        by (apply byte_inj; change (strconv.byte "2") with 50; lia).
      change (strconv.byte "2") with 50 in Hval.
      destruct (Z_le_gt_dec (strconv.byte c2) 52) as [Hb2|Hb2].
      * apply ma_alternate_r, ma_alternate_l.
        reshape (["2"%char] ++ [c2] ++ [c3])%list.
        apply ma_concat; [apply ma_literal|].
        apply ma_concat; apply ma_class; class_goal.
      * assert (c2 = "5"%char) as ->
          by (apply byte_inj; change (strconv.byte "5") with 53; lia).
        change (strconv.byte "5") with 53 in Hval.
        apply ma_alternate_l.
        reshape ((["2"%char] ++ ["5"%char]) ++ [c3])%list.
        apply ma_concat; [apply ma_concat; apply ma_literal|].
        apply ma_class. class_goal.
Qed.

Lemma prefix_matches (p : string) :
  prefix_length p -> forall pre post,
  regexp.matches_at prefix_regexp pre
    ("/"%char :: list_ascii_of_string p) post.
Proof.
  intros ([Hne Hall] & Hlen & Hval) pre post.
  unfold prefix_regexp. cbn [regexp.alt regexp.cat regexp.lit].
  destruct p as [|c1 [|c2 [|c3 p]]]; try discriminate Hlen.
  cbn [list_ascii_of_string] in *.
  unfold digits_value in Hval. cbn [list_ascii_of_string fold_left] in Hval.
  repeat match goal with
         | H : Forall _ (_ :: _) |- _ => inversion H; subst; clear H
         | H : DurationModel.is_digit _ = true |- _ =>
             apply is_digit_range in H
         end.
  apply ma_quest_some, ma_capture.
  reshape (["/"%char] ++ [c1; c2])%list.
  apply ma_concat; [apply ma_literal|]. apply ma_capture.
  destruct (Z_le_gt_dec (strconv.byte c1) 50) as [Hb1|Hb1].
  - apply ma_alternate_l. reshape ([c1] ++ [c2])%list.
    apply ma_concat; apply ma_class; class_goal.
  - assert (c1 = "3"%char) as ->
      by (apply byte_inj; change (strconv.byte "3") with 51; lia).
    change (strconv.byte "3") with 51 in Hval.
    apply ma_alternate_r. reshape (["3"%char] ++ [c2])%list.
    apply ma_concat; [apply ma_literal|].
    apply ma_class. class_goal.
Qed.

Lemma between_cons (txt : list ascii) (i j : nat) (c : ascii) :
  nth_error txt i = Some c -> (i < j)%nat ->
  between txt i j = c :: between txt (S i) j.
Proof.
  intros Hc Hij. rewrite <- (between_app txt i (S i) j) by lia.
  now rewrite (between_one txt i c Hc).
Qed.

Ltac spell_between :=
  repeat (erewrite between_cons by (first [eassumption | lia]));
  rewrite ?between_refl.

Ltac class_hyps :=
  repeat match goal with
         | H : regexp.in_class [(?lo, ?hi)] ?c = true |- _ =>
             apply (in_class_range lo hi c _ _ eq_refl eq_refl) in H;
             let l := eval vm_compute in (strconv.byte lo) in
             let h := eval vm_compute in (strconv.byte hi) in
             change (strconv.byte lo) with l in H;
             change (strconv.byte hi) with h in H
         end.

Ltac literal_bytes :=
  repeat match goal with
         | |- context [strconv.byte (Ascii ?b0 ?b1 ?b2 ?b3 ?b4 ?b5 ?b6 ?b7)] =>
             let v := eval vm_compute in
                        (strconv.byte (Ascii b0 b1 b2 b3 b4 b5 b6 b7)) in
             change (strconv.byte (Ascii b0 b1 b2 b3 b4 b5 b6 b7)) with v
         end.

Ltac digits_goal :=
  split; [discriminate|];
  cbn [list_ascii_of_string];
  repeat constructor; apply is_digit_range; literal_bytes; lia.

Lemma octet_inv (txt : list ascii) (i j : nat) :
  regexp.Matches txt octet_regexp i j ->
  octet (string_of_list_ascii (between txt i j)) /\ (i < j)%nat.
Proof.
  intros H. unfold octet_regexp in H.
  cbn [regexp.alt regexp.cat regexp.lit] in H.
  inv_matches; class_hyps; (split; [|lia]); spell_between;
    cbn [string_of_list_ascii]; unfold octet;
    (split; [digits_goal|]);
    (split; [cbn; lia|]);
    unfold digits_value; cbn [list_ascii_of_string fold_left];
    literal_bytes; lia.
Qed.

Lemma prefix_inv (txt : list ascii) (i j : nat) :
  regexp.Matches txt prefix_regexp i j ->
  i = j \/
  exists p, prefix_length p /\
            between txt i j = "/"%char :: list_ascii_of_string p.
Proof.
  intros H. unfold prefix_regexp in H.
  cbn [regexp.alt regexp.cat regexp.lit] in H.
  inv_matches; class_hyps; [now left | right ..]; spell_between;
    match goal with
    | |- exists p, _ /\ _ :: ?c1 :: ?c2 :: [] = _ =>
        exists (String c1 (String c2 EmptyString))
    end;
    (split; [|reflexivity]); unfold prefix_length;
    (split; [digits_goal|]);
    (split; [reflexivity|]);
    unfold digits_value; cbn [list_ascii_of_string fold_left];
    literal_bytes; lia.
Qed.

Ltac inv_concat H m H1 H2 :=
  inversion H as [| | | | | |? ? ? m ? H1 H2| | | | | | |]; subst; clear H.

Ltac inv_literal H Hc :=
  inversion H as [|? ? Hc| | | | | | | | | | | |]; subst; clear H.

(** A match of the address pattern over the whole text spells an address. *)
Lemma address_inv (txt : list ascii) :
  regexp.Matches txt address_regexp 0 (List.length txt) ->
  address_text (string_of_list_ascii txt).
Proof.
  intros H. unfold address_regexp in H. cbn [regexp.cat regexp.lit] in H.
  inv_concat H q1 HD1 R1. inv_concat HD1 p1 Ha Hdot1. inv_literal Hdot1 Hc1.
  inv_concat R1 q2 HD2 R2. inv_concat HD2 p2 Hb Hdot2. inv_literal Hdot2 Hc2.
  inv_concat R2 q3 HD3 R3. inv_concat HD3 p3 Hc Hdot3. inv_literal Hdot3 Hc3.
  inv_concat R3 p4 Hd Hp.
  apply octet_inv in Ha as [Ha La], Hb as [Hb Lb], Hc as [Hc Lc], Hd as [Hd Ld].
  pose proof (Matches_le _ _ _ _ Hp) as Lp.
  apply prefix_inv in Hp.
  exists (string_of_list_ascii (between txt 0 p1)),
         (string_of_list_ascii (between txt (S p1) p2)),
         (string_of_list_ascii (between txt (S p2) p3)),
         (string_of_list_ascii (between txt (S p3) p4)).
  repeat (split; [assumption|]).
  assert (Hquad :
    string_of_list_ascii (between txt 0 p4)
    = dotted_quad (string_of_list_ascii (between txt 0 p1))
        (string_of_list_ascii (between txt (S p1) p2))
        (string_of_list_ascii (between txt (S p2) p3))
        (string_of_list_ascii (between txt (S p3) p4))).
  { unfold dotted_quad.
    rewrite <- (between_app txt 0 p1 p4) by lia.
    rewrite (between_cons txt p1 p4 _ Hc1) by lia.
    rewrite <- (between_app txt (S p1) p2 p4) by lia.
    rewrite (between_cons txt p2 p4 _ Hc2) by lia.
    rewrite <- (between_app txt (S p2) p3 p4) by lia.
    rewrite (between_cons txt p3 p4 _ Hc3) by lia.
    do 3 (rewrite str_app; cbn [string_of_list_ascii]).
    reflexivity. }
  rewrite <- Hquad.
  destruct Hp as [Hlen|(p & Hpl & Hpt)].
  - left. subst p4. now rewrite between_all.
  - right. exists p. split; [assumption|].
    rewrite <- (between_all txt) at 1.
    rewrite <- (between_app txt 0 p4 (List.length txt)) by lia.
    rewrite Hpt, str_app. cbn [string_of_list_ascii].
    now rewrite string_of_list_ascii_of_string.
Qed.

Lemma chars_dotted_quad (a b c d : string) :
  list_ascii_of_string (dotted_quad a b c d)
  = ((list_ascii_of_string a ++ ["."%char])
     ++ (list_ascii_of_string b ++ ["."%char])
     ++ (list_ascii_of_string c ++ ["."%char])
     ++ list_ascii_of_string d)%list.
Proof.
  unfold dotted_quad. rewrite !chars_append. cbn [list_ascii_of_string].
  now rewrite <- !app_assoc.
Qed.

Lemma ma_pre_cast (r : regexp.Regexp) (pre pre' mid post : list ascii) :
  pre = pre' -> regexp.matches_at r pre mid post ->
  regexp.matches_at r pre' mid post.
Proof. now intros ->. Qed.

(** An address matches the address pattern; [tail] is what the optional
    prefix length matches after it. *)
Lemma address_matches (a b c d : string) (tail : list ascii) :
  octet a -> octet b -> octet c -> octet d ->
  regexp.matches_at prefix_regexp
    (list_ascii_of_string (dotted_quad a b c d)) tail [] ->
  regexp.matches_at address_regexp []
    (list_ascii_of_string (dotted_quad a b c d) ++ tail) [].
Proof.
  intros Ha Hb Hc Hd Htail.
  unfold address_regexp. cbn [regexp.cat regexp.lit].
  rewrite chars_dotted_quad in Htail. rewrite chars_dotted_quad.
  set (A := list_ascii_of_string a) in *.
  set (B := list_ascii_of_string b) in *.
  set (C := list_ascii_of_string c) in *.
  set (D := list_ascii_of_string d) in *.
  apply ma_cast
    with ((A ++ ["."%char]) ++ (B ++ ["."%char]) ++ (C ++ ["."%char])
          ++ D ++ tail)%list.
  { now rewrite <- !app_assoc. }
  apply ma_concat;
    [apply ma_concat; [apply (octet_matches a Ha) | apply ma_literal]|].
  apply ma_concat;
    [apply ma_concat; [apply (octet_matches b Hb) | apply ma_literal]|].
  apply ma_concat;
    [apply ma_concat; [apply (octet_matches c Hc) | apply ma_literal]|].
  apply ma_concat; [apply (octet_matches d Hd)|].
  eapply ma_pre_cast; [|exact Htail].
  now rewrite <- !app_assoc.
Qed.

Lemma StringMatchX_accepts_iff (r : regexpx.RegexpX) (message s : string) :
  accepts (regexpx.StringMatch r message) s <-> regexpx.MatchString r s = true.
Proof.
  unfold accepts, regexpx.StringMatch. split.
  - intros H. specialize (H EmptyString).
    destruct (regexpx.MatchString r s); [reflexivity | discriminate H].
  - intros H k. now rewrite H.
Qed.

Lemma octet_first_digit (a : string) :
  octet a -> exists c rest, a = String c rest /\ regexpx.is_word c = true.
Proof.
  intros ([Hne Hall] & _). destruct a as [|c rest]; [contradiction|].
  exists c, rest. split; [reflexivity|].
  cbn [list_ascii_of_string] in Hall. inversion Hall as [|? ? Hc _]; subst.
  unfold regexpx.is_word. unfold DurationModel.is_digit in Hc.
  cbv zeta. now rewrite Hc.
Qed.

(** The address pattern matches the whole of [s] from its first byte. *)
Lemma address_found (s : string) :
  regexp.matches_at address_regexp [] (list_ascii_of_string s) [] ->
  regexpx.boundary (list_ascii_of_string s) 0 = true ->
  regexpx.MatchString ValidationIpAddress_regexp s = true.
Proof.
  intros Hm Hb. unfold regexpx.MatchString.
  apply existsb_exists. exists O. split; [apply in_seq; lia|].
  set (txt := list_ascii_of_string s) in *.
  assert (Hin : In (List.length txt)
                  (regexpx.ends ValidationIpAddress_regexp txt 0)).
  { unfold ValidationIpAddress_regexp. cbn [regexpx.ends].
    apply in_or_app. right.
    apply in_flat_map. exists O. split.
    { apply ends_complete; [constructor | lia]. }
    apply in_flat_map. exists (List.length txt). split.
    - apply in_flat_map. exists O. split; [rewrite Hb; now left|].
      apply ends_complete; [|lia].
      unfold regexp.matches_at in Hm. cbn [app List.length] in Hm.
      now rewrite app_nil_r in Hm.
    - apply ends_complete; [constructor | lia]. }
  destruct (regexpx.ends ValidationIpAddress_regexp txt 0);
    [contradiction | reflexivity].
Qed.

(** The texts the address validator accepts. *)
Lemma ValidationIpAddress_language (s : string) :
  accepts ValidationIpAddress s <-> s = EmptyString \/ address_text s.
Proof.
  unfold ValidationIpAddress. rewrite StringMatchX_accepts_iff. split.
  - unfold regexpx.MatchString. intros H.
    apply existsb_exists in H as (i & _ & H).
    set (txt := list_ascii_of_string s) in *.
    destruct (regexpx.ends ValidationIpAddress_regexp txt i) as [|j l] eqn:He;
      [discriminate|]. clear H.
    assert (Hj : In j (regexpx.ends ValidationIpAddress_regexp txt i))
      by (rewrite He; now left). clear He l.
    unfold ValidationIpAddress_regexp in Hj. cbn [regexpx.ends] in Hj.
    apply in_app_or in Hj as [Hj|Hj].
    + left. apply ends_sound in Hj. inv_matches.
      subst txt. destruct s; [reflexivity | discriminate].
    + right. apply in_flat_map in Hj as (m0 & Hm0 & Hj).
      apply ends_sound in Hm0. inv_matches.
      apply in_flat_map in Hj as (m1 & Hm1 & Hj).
      apply ends_sound in Hj. inv_matches.
      apply in_flat_map in Hm1 as (m2 & Hm2 & Hm1).
      destruct (regexpx.boundary txt 0); [|contradiction].
      destruct Hm2 as [<-|[]].
      apply ends_sound, address_inv in Hm1.
      subst txt. now rewrite string_of_list_ascii_of_string in Hm1.
  - intros [->|(a & b & c & d & Ha & Hb & Hc & Hd & Hs)]; [reflexivity|].
    destruct (octet_first_digit a Ha) as (c1 & rest & Ea & Hw).
    assert (Hfirst : forall tail,
              regexpx.boundary
                (list_ascii_of_string (dotted_quad a b c d) ++ tail) 0 = true).
    { intros tail. rewrite chars_dotted_quad. subst a.
      cbn [list_ascii_of_string app]. unfold regexpx.boundary, regexpx.word_at.
      cbn [nth_error]. now rewrite Hw. }
    destruct Hs as [->|(p & Hp & ->)].
    + apply address_found.
      * rewrite <- (app_nil_r (list_ascii_of_string _)).
        apply address_matches; try assumption.
        unfold prefix_regexp. apply ma_quest_none.
      * rewrite <- (app_nil_r (list_ascii_of_string _)). apply Hfirst.
    + apply address_found.
      * rewrite chars_append.
        change (list_ascii_of_string (String.append "/" p))
          with ("/"%char :: list_ascii_of_string p).
        apply address_matches; try assumption.
        now apply prefix_matches.
      * rewrite chars_append. apply Hfirst.
Qed.

(** X10: [ValidationIpAddress] accepts exactly the empty text and the
    addresses made of four numbers separated by dots, each number written
    with one to three digits and at most 255, optionally followed by a slash
    and a two-digit prefix length from 10 to 32.  Nothing may precede or
    follow the address. *)
Theorem ValidationIpAddress_accepts_iff (s : string) :
  accepts ValidationIpAddress s <-> s = EmptyString \/ address_text s.
Proof. apply ValidationIpAddress_language. Qed.

Lemma ValidationIpAddress_accepts_iff_witness :
  accepts ValidationIpAddress EmptyString.
Proof.
  apply (proj2 (ValidationIpAddress_accepts_iff EmptyString)). now left.
Defined.

(** *** Reading an address back *)

Lemma split_unique (sep : ascii) (x x' y y' : list ascii) :
  ~ In sep x -> ~ In sep x' ->
  (x ++ sep :: y)%list = (x' ++ sep :: y')%list -> x = x' /\ y = y'.
Proof.
  revert x'. induction x as [|c x IH]; intros x' Hx Hx' Heq.
  - destruct x' as [|c' x']; cbn in Heq.
    + injection Heq as ->. now split.
    + injection Heq as -> _. exfalso. apply Hx'. now left.
  - destruct x' as [|c' x']; cbn in Heq.
    + injection Heq as -> _. exfalso. apply Hx. now left.
    + injection Heq as -> Heq.
      destruct (IH x') as [-> ->]; [| |assumption|now split].
      * intros Hin. apply Hx. now right.
      * intros Hin. apply Hx'. now right.
Qed.

Lemma digits_without (sep : ascii) (s : string) :
  digits s -> DurationModel.is_digit sep = false ->
  ~ In sep (list_ascii_of_string s).
Proof.
  intros [_ Hall] Hsep Hin.
  rewrite Forall_forall in Hall. specialize (Hall sep Hin). congruence.
Qed.

Lemma chars_dotted_quad_cons (a b c d : string) :
  list_ascii_of_string (dotted_quad a b c d)
  = (list_ascii_of_string a ++ "."%char
     :: list_ascii_of_string b ++ "."%char
     :: list_ascii_of_string c ++ "."%char :: list_ascii_of_string d)%list.
Proof.
  unfold dotted_quad. rewrite !chars_append. reflexivity.
Qed.

Lemma dotted_quad_without_slash (a b c d : string) :
  digits a -> digits b -> digits c -> digits d ->
  ~ In "/"%char (list_ascii_of_string (dotted_quad a b c d)).
Proof.
  intros Ha Hb Hc Hd. rewrite chars_dotted_quad_cons. intros Hin.
  repeat (apply in_app_or in Hin as [Hin|[Hin|Hin]];
          [eapply digits_without; [| |exact Hin]; [eassumption | reflexivity]
          |discriminate Hin|]).
  eapply digits_without; [| |exact Hin]; [eassumption | reflexivity].
Qed.

Lemma chars_inj (s s' : string) :
  list_ascii_of_string s = list_ascii_of_string s' -> s = s'.
Proof.
  intros H. rewrite <- (string_of_list_ascii_of_string s),
    <- (string_of_list_ascii_of_string s'). now rewrite H.
Qed.

Lemma dotted_quad_inj (a b c d a' b' c' d' : string) :
  digits a -> digits b -> digits c -> digits a' -> digits b' -> digits c' ->
  dotted_quad a b c d = dotted_quad a' b' c' d' ->
  a = a' /\ b = b' /\ c = c' /\ d = d'.
Proof.
  intros Ha Hb Hc Ha' Hb' Hc' Heq.
  apply (f_equal list_ascii_of_string) in Heq.
  rewrite !chars_dotted_quad_cons in Heq.
  apply split_unique in Heq as [Ea Heq];
    [|eapply digits_without; [eassumption | reflexivity] ..].
  apply split_unique in Heq as [Eb Heq];
    [|eapply digits_without; [eassumption | reflexivity] ..].
  apply split_unique in Heq as [Ec Ed];
    [|eapply digits_without; [eassumption | reflexivity] ..].
  auto using chars_inj.
Qed.

(** X11: which dotted quads and which prefix lengths pass.  For four runs of
    digits [a], [b], [c], [d], the text [a.b.c.d] is accepted by
    [ValidationIpAddress] exactly when each run has at most three digits and
    denotes at most 255; and for an accepted [a.b.c.d], the text [a.b.c.d/p]
    is accepted exactly when [p] is two digits that denote a number from 10
    to 32, so a prefix length from 0 to 9 is rejected. *)
Theorem ValidationIpAddress_reads_back (a b c d p : string) :
  (digits a -> digits b -> digits c -> digits d ->
   (accepts ValidationIpAddress (dotted_quad a b c d) <->
    octet a /\ octet b /\ octet c /\ octet d)) /\
  (octet a -> octet b -> octet c -> octet d ->
   (accepts ValidationIpAddress
      (String.append (dotted_quad a b c d) (String.append "/" p)) <->
    prefix_length p)).
Proof.
  split.
  - intros Ha Hb Hc Hd. rewrite ValidationIpAddress_language. split.
    + intros [Hs|(a' & b' & c' & d' & Ha' & Hb' & Hc' & Hd' & Hs)].
      * apply (f_equal list_ascii_of_string) in Hs.
        rewrite chars_dotted_quad_cons in Hs.
        destruct (list_ascii_of_string a); discriminate Hs.
      * destruct Hs as [Hs|(p' & Hp' & Hs)].
        -- apply dotted_quad_inj in Hs as (-> & -> & -> & ->);
             try assumption; [tauto | apply Ha' | apply Hb' | apply Hc'].
        -- exfalso.
           apply (dotted_quad_without_slash a b c d Ha Hb Hc Hd).
           rewrite Hs, chars_append.
           change (list_ascii_of_string (String.append "/" p'))
             with ("/"%char :: list_ascii_of_string p').
           apply in_or_app. right. now left.
    + intros (Oa & Ob & Oc & Od). right. exists a, b, c, d. tauto.
  - intros Oa Ob Oc Od. rewrite ValidationIpAddress_language. split.
    + intros [Hs|(a' & b' & c' & d' & Ha' & Hb' & Hc' & Hd' & Hs)].
      * apply (f_equal list_ascii_of_string) in Hs.
        rewrite chars_append, chars_dotted_quad_cons in Hs.
        destruct (list_ascii_of_string a); discriminate Hs.
      * destruct Hs as [Hs|(p' & Hp' & Hs)];
          apply (f_equal list_ascii_of_string) in Hs;
          rewrite chars_append in Hs;
          change (list_ascii_of_string (String.append "/" p))
            with ("/"%char :: list_ascii_of_string p) in Hs.
        -- exfalso.
           apply (dotted_quad_without_slash a' b' c' d');
             [apply Ha' | apply Hb' | apply Hc' | apply Hd' |].
           rewrite <- Hs. apply in_or_app. right. now left.
        -- rewrite chars_append in Hs.
           change (list_ascii_of_string (String.append "/" p'))
             with ("/"%char :: list_ascii_of_string p') in Hs.
           apply split_unique in Hs as [_ Hs].
           ++ apply chars_inj in Hs. now subst p'.
           ++ apply dotted_quad_without_slash;
                [apply Oa | apply Ob | apply Oc | apply Od].
           ++ apply dotted_quad_without_slash;
                [apply Ha' | apply Hb' | apply Hc' | apply Hd'].
    + intros Hp. right. exists a, b, c, d.
      repeat (split; [assumption|]). right. now exists p.
Qed.

Lemma octet_192 : octet "192".
Proof.
  unfold octet, digits, digits_value. cbn.
  repeat split; try discriminate; try lia. repeat constructor.
Qed.

Lemma octet_168 : octet "168".
Proof.
  unfold octet, digits, digits_value. cbn.
  repeat split; try discriminate; try lia. repeat constructor.
Qed.

Lemma octet_1 : octet "1".
Proof.
  unfold octet, digits, digits_value. cbn.
  repeat split; try discriminate; try lia. repeat constructor.
Qed.

Lemma prefix_24 : prefix_length "24".
Proof.
  unfold prefix_length, digits, digits_value. cbn.
  repeat split; try discriminate; try lia. repeat constructor.
Qed.

Lemma ValidationIpAddress_reads_back_witness :
  accepts ValidationIpAddress (dotted_quad "192" "168" "1" "1") /\
  accepts ValidationIpAddress
    (String.append (dotted_quad "192" "168" "1" "1") (String.append "/" "24")).
Proof.
  pose proof (ValidationIpAddress_reads_back "192" "168" "1" "1" "24")
    as [Hquad Hprefix].
  split.
  - apply Hquad;
      [apply octet_192 | apply octet_168 | apply octet_1 | apply octet_1
      |auto using octet_192, octet_168, octet_1].
  - apply Hprefix;
      [apply octet_192 | apply octet_168 | apply octet_1 | apply octet_1
      |apply prefix_24].
Defined.

Example ValidationIpAddress_samples :
  regexpx.MatchString ValidationIpAddress_regexp "10.0.0.0/8" = false /\
  regexpx.MatchString ValidationIpAddress_regexp "10.0.0.0/24" = true /\
  regexpx.MatchString ValidationIpAddress_regexp "010.001.000.1" = true /\
  regexpx.MatchString ValidationIpAddress_regexp "256.1.1.1" = false /\
  regexpx.MatchString ValidationIpAddress_regexp "a1.2.3.4" = false.
Proof. repeat split; vm_compute; reflexivity. Qed.
